(** * html-to-markdown: the rule engine, the Table plugin and the
      RobustCodeBlock plugin

    A shallow embedding of [markdown.go], [plugin/table.go] and the
    RobustCodeBlock plugin, with the properties of the rule engine, of the
    Header/Footer accumulation, of heading-row detection, of header synthesis
    and of code-text collection that the specification states.

    Conventions.
    - A Go [string] is a sequence of bytes: it is a Rocq [string].
    - An [*html.Node] is a position in the parsed document: the document is a
      tree ([Node]) and a node pointer is the path ([Path]) from the root to
      the node, so that pointer equality is equality of paths.
    - A [*goquery.Selection] is the document together with the list of the
      selected node pointers; a [nil] selection is [None].
    - The read/write lock of the Converter guards concurrent registration; a
      conversion only reads, so the lock has no counterpart here.
    - Functions of the module that are declared in other files
      ([getRuleFuncs], [CalculateCodeFence], [TrimTrailingSpaces]) and
      functions of other packages that do input and output or decode UTF-8
      ([html.Render], [utf8.DecodeRuneInString]) are parameters of the
      sections that call them. The registry of a Converter has a model from
      the specification, which the concrete converters use.
    - [strings.ToLower] and [strings.Fields] are modelled on ASCII text. *)

From Stdlib Require Import String Ascii List Bool Arith Lia.
From stdpp Require Import base option list gmap strings.

Set Default Proof Using "Type".

(* ====================================================================== *)
(** * Definitions *)
(* ====================================================================== *)

(** ** Package [strings] of the Go standard library *)

Module GoStrings.

(** The line feed ["\n"] and the carriage return ["\r"]. *)
Definition LF : string := String "010"%char EmptyString.
Definition CR : string := String "013"%char EmptyString.
Definition CRLF : string := CR +:+ LF.

(** [strings.HasPrefix]. *)
Definition HasPrefix (s prefix : string) : bool := String.prefix prefix s.

(** [strings.HasSuffix]: [s] ends with [suffix]. *)
Fixpoint HasSuffix (s suffix : string) : bool :=
  String.eqb s suffix ||
  match s with
  | EmptyString => false
  | String _ s' => HasSuffix s' suffix
  end.

(** [strings.Contains]: [substr] occurs somewhere in [s]. *)
Fixpoint Contains (s substr : string) : bool :=
  String.prefix substr s ||
  match s with
  | EmptyString => false
  | String _ s' => Contains s' substr
  end.

(** [strings.Repeat]. *)
Fixpoint Repeat (s : string) (count : nat) : string :=
  match count with
  | O => EmptyString
  | S n => s +:+ Repeat s n
  end.

(** [strings.ToLower] on ASCII text: the letters [A]..[Z] are mapped to
    [a]..[z] and every other byte is kept. *)
Definition lower (c : ascii) : ascii :=
  let n := nat_of_ascii c in
  if (65 <=? n) && (n <=? 90) then ascii_of_nat (n + 32) else c.

Fixpoint ToLower (s : string) : string :=
  match s with
  | EmptyString => EmptyString
  | String c s' => String (lower c) (ToLower s')
  end.

(** [strings.ReplaceAll s old new] for a non-empty [old]: the occurrences
    of [old] are replaced from left to right, without overlap and without
    rescanning what was written. [skip] counts the bytes of a match that
    are still to be dropped. *)
Fixpoint replaceFrom (skip : nat) (s old new : string) : string :=
  match s with
  | EmptyString => EmptyString
  | String c s' =>
      match skip with
      | S k => replaceFrom k s' old new
      | O =>
          if String.prefix old s
          then new +:+ replaceFrom (String.length old - 1) s' old new
          else String c (replaceFrom 0 s' old new)
      end
  end.

Definition ReplaceAll (s old new : string) : string := replaceFrom 0 s old new.

(** [strings.TrimRight s "\n"]: the trailing line feeds are removed. *)
Fixpoint TrimRightLF (s : string) : string :=
  match s with
  | EmptyString => EmptyString
  | String c s' =>
      match TrimRightLF s' with
      | EmptyString => if Ascii.eqb c "010" then EmptyString else String c EmptyString
      | t => String c t
      end
  end.

End GoStrings.
Import GoStrings.

(** ** Package [golang.org/x/net/html]: the parsed document *)

Inductive NodeType :=
| ErrorNode | TextNode | DocumentNode | ElementNode | CommentNode | DoctypeNode | RawNode.

#[global] Instance NodeType_eq_dec : EqDecision NodeType.
Proof. solve_decision. Defined.

Record Attribute := mkAttr { Key : string; Val : string }.

(** An [html.Node]: its type, its [Data] (the tag name of an element, the
    content of a text node), its attributes, and its children from
    [FirstChild] along [NextSibling]. *)
Unset Elimination Schemes.
Inductive Node :=
| mkNode (type : NodeType) (data : string) (attr : list Attribute) (childNodes : list Node).
Set Elimination Schemes.

Definition NType (n : Node) : NodeType := let 'mkNode t _ _ _ := n in t.
Definition Data (n : Node) : string := let 'mkNode _ d _ _ := n in d.
Definition Attr (n : Node) : list Attribute := let 'mkNode _ _ a _ := n in a.
Definition ChildNodes (n : Node) : list Node := let 'mkNode _ _ _ c := n in c.

Definition isElement (n : Node) : bool := bool_decide (NType n = ElementNode).

(** A node pointer: the indices of the children to follow from the root. *)
Abbreviation Path := (list nat).

Fixpoint nodeAt (root : Node) (p : Path) : option Node :=
  match p with
  | [] => Some root
  | i :: p' =>
      match ChildNodes root !! i with
      | Some c => nodeAt c p'
      | None => None
      end
  end.

(** The pointers to the children of the node at [p], in sibling order. *)
Definition childPaths (root : Node) (p : Path) : list Path :=
  match nodeAt root p with
  | Some n => map (fun i => p ++ [i]) (seq 0 (length (ChildNodes n)))
  | None => []
  end.

(** [n.Parent]: [nil] for the root. *)
Definition parentPath (p : Path) : option Path :=
  match p with
  | [] => None
  | _ => Some (removelast p)
  end.

Definition typeAt (root : Node) (p : Path) : option NodeType := NType <$> nodeAt root p.

Definition isElementAt (root : Node) (p : Path) : bool :=
  bool_decide (typeAt root p = Some ElementNode).

(** The pointers to the nodes of the subtree at [p], the node itself first
    and then its descendants in document order. *)
Fixpoint subtreePaths (n : Node) (p : Path) : list Path :=
  p :: (fix children (cs : list Node) (i : nat) : list Path :=
          match cs with
          | [] => []
          | c :: cs' => subtreePaths c (p ++ [i]) ++ children cs' (S i)
          end) (ChildNodes n) 0.

(** ** Package [goquery]: selections over the document *)

Record Selection := mkSelection { document : Node; Nodes : list Path }.

Definition pathIn (p : Path) (ps : list Path) : bool := bool_decide (p ∈ ps).

(** [appendWithoutDuplicates]: a node enters a selection once. *)
Definition appendWithoutDuplicates (target nodes : list Path) : list Path :=
  fold_left (fun acc n => if pathIn n acc then acc else acc ++ [n]) nodes target.

(** [mapNodes]: the nodes [f] gives for each node of the selection, without
    duplicates. *)
Definition mapNodes (nodes : list Path) (f : Path -> list Path) : list Path :=
  fold_left (fun acc n => appendWithoutDuplicates acc (f n)) nodes [].

(** The selection of the single node [p]: what [Each] passes to its callback. *)
Definition single (s : Selection) (p : Path) : Selection := mkSelection (document s) [p].

(** The selections [Each] hands to its callback, in order. *)
Definition each (s : Selection) : list Selection := map (single s) (Nodes s).

Definition Length (s : Selection) : nat := length (Nodes s).

(** [s.Get(0)], where the selection has a first node. *)
Definition Get0 (s : Selection) : option Node :=
  match Nodes s with
  | [] => None
  | p :: _ => nodeAt (document s) p
  end.

(** [s.Eq(i)] for [i >= 0]: the [i]-th node, or the empty selection. *)
Definition Eq (s : Selection) (i : nat) : Selection :=
  match Nodes s !! i with
  | Some p => mkSelection (document s) [p]
  | None => mkSelection (document s) []
  end.

Definition First (s : Selection) : Selection := Eq s 0.

(** [nodeName]: the tag of an element (or doctype), [#text] and the like
    otherwise. *)
Definition nodeName (n : Node) : string :=
  match NType n with
  | ElementNode | DoctypeNode => Data n
  | ErrorNode => "#error"
  | TextNode => "#text"
  | DocumentNode => "#document"
  | CommentNode => "#comment"
  | RawNode => ""
  end.

(** [goquery.NodeName]: the name of the first node, [""] for an empty
    selection. *)
Definition NodeName (s : Selection) : string :=
  match Get0 s with
  | Some n => nodeName n
  | None => ""
  end.

(** [s.Contents()]: the children of the selected nodes, text and comment
    nodes included. *)
Definition Contents (s : Selection) : Selection :=
  mkSelection (document s) (mapNodes (Nodes s) (childPaths (document s))).

(** [s.Children()]: the element children of the selected nodes. *)
Definition elementChildPaths (root : Node) (p : Path) : list Path :=
  filter (fun c => isElementAt root c = true) (childPaths root p).

Definition Children (s : Selection) : Selection :=
  mkSelection (document s) (mapNodes (Nodes s) (elementChildPaths (document s))).

(** [s.Parent()]: the parents of the selected nodes that are elements. *)
Definition Parent (s : Selection) : Selection :=
  mkSelection (document s)
    (mapNodes (Nodes s) (fun p =>
       match parentPath p with
       | Some pp => if isElementAt (document s) pp then [pp] else []
       | None => []
       end)).

(** [s.Siblings()]: the element children of each selected node's parent,
    the node itself left out. *)
Definition Siblings (s : Selection) : Selection :=
  mkSelection (document s)
    (mapNodes (Nodes s) (fun p =>
       match parentPath p with
       | Some pp => filter (fun c => c ≠ p) (elementChildPaths (document s) pp)
       | None => []
       end)).

(** A tag-name selector such as ["table"] matches the elements of that tag. *)
Definition matchesTag (root : Node) (tag : string) (p : Path) : bool :=
  match nodeAt root p with
  | Some n => isElement n && String.eqb (Data n) tag
  | None => false
  end.

(** [s.Is(tag)]: some selected node matches. *)
Definition Is (s : Selection) (tag : string) : bool :=
  existsb (matchesTag (document s) tag) (Nodes s).

(** The proper descendants of the node at [p], in document order. *)
Definition descendantPaths (root : Node) (p : Path) : list Path :=
  match nodeAt root p with
  | Some n => tail (subtreePaths n p)
  | None => []
  end.

(** [s.Find(tag)]: the descendants of the selected nodes that match. *)
Definition Find (s : Selection) (tag : string) : Selection :=
  mkSelection (document s)
    (mapNodes (Nodes s) (fun p =>
       filter (fun d => matchesTag (document s) tag d = true) (descendantPaths (document s) p))).

(** The ancestors of the node at [p], the parent first. *)
Fixpoint ancestorPaths (p : Path) (fuel : nat) : list Path :=
  match fuel with
  | O => []
  | S k =>
      match parentPath p with
      | Some pp => pp :: ancestorPaths pp k
      | None => []
      end
  end.

(** [s.ParentsFiltered(tag)]: the element ancestors of the selected nodes
    that match. *)
Definition ParentsFiltered (s : Selection) (tag : string) : Selection :=
  mkSelection (document s)
    (mapNodes (Nodes s) (fun p =>
       filter (fun a => matchesTag (document s) tag a = true) (ancestorPaths p (length p)))).

(** [s.Attr(name)]: the attribute of the first node. *)
Definition attrOf (n : Node) (name : string) : option string :=
  Val <$> find (fun a => String.eqb (Key a) name) (Attr n).

Definition AttrOr (s : Selection) (name default : string) : string :=
  match Get0 s with
  | Some n => from_option id default (attrOf n name)
  | None => default
  end.

(** ** [markdown.go]: options, results and rules *)

(** [Options]: the strings are as the caller set them; [domain] is set by the
    conversion and [GetAbsoluteURL] is the pluggable absolutizer. *)
Record Options := mkOptions {
  HeadingStyle : string;
  HorizontalRule : string;
  BulletListMarker : string;
  CodeBlockStyle : string;
  Fence : string;
  EmDelimiter : string;
  StrongDelimiter : string;
  LinkStyle : string;
  LinkReferenceStyle : string;
  EscapeMode : string;
  domain : string;
  GetAbsoluteURL : Selection -> string -> string -> string
}.

(** [AdvancedResult]: the Markdown of a subtree, and the text that floats to
    the top ([Header]) and to the bottom ([Footer]) of the document. *)
Record AdvancedResult := mkResult {
  Header : string;
  Markdown : string;
  Footer : string
}.

(** The zero value [AdvancedResult{}]. *)
Definition emptyResult : AdvancedResult := mkResult "" "" "".

(** A function of a [Rule]'s [Replacement] field: [None] is the [nil]
    pointer, which passes the node on to the next function. *)
Abbreviation simpleRuleFunc := (string -> Selection -> Options -> option string).

(** A function of a [Rule]'s [AdvancedReplacement] field, which is also what
    the registry stores: the result and whether the node is skipped. *)
Abbreviation ruleFunc := (string -> Selection -> Options -> AdvancedResult * bool).

Record Rule := mkRule {
  Filter : list string;
  Replacement : option simpleRuleFunc;
  AdvancedReplacement : option ruleFunc
}.

(** [ruleDefault] *)
Definition ruleDefault : simpleRuleFunc :=
  fun content selec opt => Some content.

(** What a call of [html.Render] leaves: the buffer it wrote, or an error. *)
Inductive rendered :=
| RenderOk (buf : string)
| RenderErr (err : string).

(** What a Go call does: it returns, or it panics (an index out of range). *)
Inductive outcome (A : Type) :=
| Returns (a : A)
| Panics.
Arguments Returns {A} a.
Arguments Panics {A}.

Section Keep.
(** [html.Render] of package [golang.org/x/net/html] serializes a node. *)
Variable Render : Node -> rendered.

(** [ruleKeep], with the lines it logs. [selec.Get(0)] indexes the node
    list, and panics when it is empty. *)
Definition ruleKeep (content : string) (selec : Selection) (opt : Options)
  : outcome (list string * option string) :=
  match Get0 selec with
  | None => Panics
  | Some element =>
      match Render element with
      | RenderErr err =>
          Returns (["[firecrawl/html-to-markdown] ruleKeep: error while rendering the element to html: " +:+ err],
                   Some "")
      | RenderOk buf => Returns ([], Some buf)
      end
  end.
End Keep.

(** Modelled from the spec: the registry state of a Converter, whose
    declaration is not among the sources. It is a mapping from tag name to
    the ordered list of replacement functions (registration order), and the
    set of tag names whose entire subtree is dropped ([conv.remove], which
    [selecToMD] reads). *)
Record Converter := mkConverter {
  rules : gmap string (list ruleFunc);
  remove : gset string
}.

(** Modelled from the spec: [resolve(tagName)] returns the tag's replacement
    list or a marker meaning "removed" ([None], the [nil] slice). The
    method [getRuleFuncs] of the Converter is not among the sources; the
    engine below takes it as a parameter, and this is the instance used on
    concrete converters. *)
Definition resolve (conv : Converter) (tag : string) : option (list ruleFunc) :=
  if decide (tag ∈ remove conv) then None
  else Some (default [] (rules conv !! tag)).

(** Modelled from the spec: a simple replacement as a registry function. A
    replacement that returns "no replacement" ([nil]) skips, and its text is
    the Markdown of the result otherwise. The adapter is not among the
    sources. *)
Definition wrap (simple : simpleRuleFunc) : ruleFunc :=
  fun content selec opt =>
    match simple content selec opt with
    | None => (emptyResult, true)
    | Some text => (mkResult "" text "", false)
    end.

(** [appendBlock] *)
Definition appendBlock (current addition : string) : string :=
  if String.eqb addition "" then current
  else
    let current :=
      if negb (String.eqb current "") && negb (HasSuffix current LF)
      then current +:+ LF else current in
    let current := current +:+ addition in
    if negb (HasSuffix addition LF) then current +:+ LF else current.

(** [accumulate]: the receiver after the call. *)
Definition accumulate (result other : AdvancedResult) : AdvancedResult :=
  mkResult (appendBlock (Header result) (Header other))
           (Markdown result)
           (appendBlock (Footer result) (Footer other)).

Section Engine.
(** [conv.getRuleFuncs]: the functions registered for a tag, or [None] for
    the [nil] slice. *)
Variable getRuleFuncs : Converter -> string -> option (list ruleFunc).

(** The loop of [applyRules]: [k] is [i + 1], so the loop runs while
    [k > 0] and reads [rules[k - 1]], which is within range. *)
Fixpoint applyRulesFrom (rs : list ruleFunc) (k : nat)
    (markdown : string) (selec : Selection) (opt : Options) : AdvancedResult * bool :=
  match k with
  | O => (mkResult "" markdown "", true)
  | S i =>
      match rs !! i with
      | Some rule =>
          let '(res, skip) := rule markdown selec opt in
          if negb skip then (res, false)
          else applyRulesFrom rs i markdown selec opt
      | None => applyRulesFrom rs i markdown selec opt (* not reached: [i < len(rules)] *)
      end
  end.

(** [applyRules] *)
Definition applyRules (conv : Converter) (nodeName markdown : string)
    (selec : Selection) (opt : Options) : AdvancedResult * bool :=
  match getRuleFuncs conv nodeName with
  | None => (emptyResult, false)
  | Some rs => applyRulesFrom rs (length rs) markdown selec opt
  end.

(** The state of the walk over the children of a node: the running
    [result] and the text of the [strings.Builder]. *)
Definition walkState : Type := AdvancedResult * string.

(** The callback of [selec.Contents().Each] in [selecToMD], for the child
    [s]. [content] is what [conv.selecToMD(s, opt)] returns; a removed
    child returns before that call, so nothing of [content] is used. *)
Definition visitChild (conv : Converter) (opt : Options)
    (s : Selection) (content : AdvancedResult) (st : walkState) : walkState :=
  let '(result, builder) := st in
  let nodeName := NodeName s in
  let shouldRemove := bool_decide (nodeName ∈ remove conv) in
  if shouldRemove then (result, builder)
  else
    let result := accumulate result content in
    let '(ruleResult, useOriginal) := applyRules conv nodeName (Markdown content) s opt in
    let result := accumulate result ruleResult in
    if negb useOriginal
    then (result, builder +:+ Markdown ruleResult)
    else (result, builder +:+ Markdown content).

(** [result.Markdown = builder.String(); return result] *)
Definition finishWalk (st : walkState) : AdvancedResult :=
  let '(result, builder) := st in
  mkResult (Header result) builder (Footer result).

(** [selecToMD] on the selection of the one node [n], found at [p] in the
    document [root]: the children of [n] are visited in order, and the
    call on a child is the recursive call on that child's subtree. *)
Fixpoint selecToMDNode (conv : Converter) (opt : Options)
    (root : Node) (n : Node) (p : Path) {struct n} : AdvancedResult :=
  finishWalk
    ((fix eachChild (cs : list Node) (i : nat) (st : walkState) : walkState :=
        match cs with
        | [] => st
        | c :: cs' =>
            eachChild cs' (S i)
              (visitChild conv opt (mkSelection root [p ++ [i]])
                 (selecToMDNode conv opt root c (p ++ [i])) st)
        end) (ChildNodes n) 0 (emptyResult, EmptyString)).

(** The recursive call [conv.selecToMD(s, opt)] for a selection [s] that
    [Each] passes, which holds one node. *)
Definition selecToMDChild (conv : Converter) (opt : Options) (s : Selection) : AdvancedResult :=
  match Nodes s with
  | [c] =>
      match nodeAt (document s) c with
      | Some n => selecToMDNode conv opt (document s) n c
      | None => emptyResult
      end
  | _ => emptyResult
  end.

(** [selecToMD] *)
Definition selecToMD (conv : Converter) (selec : Selection) (opt : Options) : AdvancedResult :=
  finishWalk
    (fold_left (fun st s => visitChild conv opt s (selecToMDChild conv opt s) st)
       (each (Contents selec)) (emptyResult, EmptyString)).

(** [applyRulesToSelection]; [None] is the [nil] selection. *)
Definition applyRulesToSelection (conv : Converter) (selec : option Selection)
    (opt : Options) : AdvancedResult :=
  match selec with
  | None => emptyResult
  | Some selec =>
      if Nat.eqb (length (Nodes selec)) 0 then emptyResult
      else
        let content := selecToMD conv selec opt in
        let result := mkResult (Header content) "" (Footer content) in
        let '(ruleResult, useOriginal) :=
          applyRules conv (NodeName selec) (Markdown content) selec opt in
        let result := accumulate result ruleResult in
        if negb useOriginal
        then mkResult (Header result) (Markdown ruleResult) (Footer result)
        else mkResult (Header result) (Markdown content) (Footer result)
  end.
End Engine.

(** ** [plugin/table.go]: the Table plugin *)

Module Table.

(** [isFirstTbody] *)
Definition isFirstTbody (s : Selection) : bool :=
  let firstSibling := Eq (Siblings s) 0 in
  if Is s "tbody" && Nat.eqb (Length firstSibling) 0 then true
  else false.

(** The loop of [isHeadingRow] and of [getCellContent] over the children
    of [parentNode]: the first child that is an element, if any. *)
Definition firstElementChild (root : Node) (parentNode : Path) : option Path :=
  find (isElementAt root) (childPaths root parentNode).

(** [isHeadingRow] *)
Definition isHeadingRow (s : Selection) : bool :=
  let parent := Parent s in
  if String.eqb (NodeName parent) "thead" then true
  else
    let isTableOrBody := Is parent "table" || isFirstTbody parent in
    let children := Children s in
    let everyTH :=
      forallb (fun i => String.eqb (NodeName (Eq children i)) "th")
        (seq 0 (Length children)) in
    if negb everyTH || negb isTableOrBody then false
    else
      match Nodes s, Nodes parent with
      | sNode :: _, parentNode :: _ =>
          match firstElementChild (document s) parentNode with
          | Some child => bool_decide (child = sNode)
          | None => false
          end
      | _, _ => false
      end.

(** The loop of the table rule over [selec.Find("tr")]: the largest number
    of element children of a row. *)
Definition maxCount (rows : Selection) : nat :=
  fold_left
    (fun maxCount s =>
       let count := Length (Children s) in
       if maxCount <? count then count else maxCount)
    (each rows) 0.

(** The [Replacement] of the rule for [table]. *)
Definition tableReplacement : simpleRuleFunc :=
  fun content selec opt =>
    let noHeader :=
      Nat.eqb (Length (Find selec "thead")) 0 && Nat.eqb (Length (Find selec "th")) 0 in
    let content :=
      if noHeader then
        let maxCount := maxCount (Find selec "tr") in
        let header := "|" +:+ Repeat "     |" maxCount in
        let divider := "|" +:+ Repeat " --- |" maxCount in
        header +:+ LF +:+ divider +:+ content
      else content in
    let content := LF +:+ LF +:+ content +:+ LF +:+ LF in
    Some content.

(** The rule for [table], as the plugin returns it. *)
Definition tableRule : Rule := mkRule ["table"] (Some tableReplacement) None.

End Table.

(** ** The RobustCodeBlock plugin *)

Module RobustCodeBlock.

(** [isGutter] *)
Definition isGutter (class : string) : bool :=
  let lower := ToLower class in
  Contains lower "gutter" || Contains lower "line-numbers".

(** The tags of the second [switch] of [collect]. *)
Definition blockish : list string :=
  ["p"; "div"; "li"; "tr"; "table"; "thead"; "tbody"; "tfoot"; "section";
   "article"; "blockquote"; "pre"; "h1"; "h2"; "h3"; "h4"; "h5"; "h6"].

Definition isBlockish (name : string) : bool := existsb (String.eqb name) blockish.

(** [collect]: the text of the builder [b] after the call. A node pointer
    of the tree is never [nil]; a node that is neither text nor element
    writes nothing and is not entered. *)
Fixpoint collect (n : Node) (b : string) {struct n} : string :=
  match NType n with
  | TextNode => b +:+ Data n
  | ElementNode =>
      let name := ToLower (Data n) in
      if negb (String.eqb name "") &&
         existsb (fun a => String.eqb (Key a) "class" && isGutter (Val a)) (Attr n)
      then b
      else
        let b := if String.eqb name "br" then b +:+ LF else b in
        let b :=
          (fix children (cs : list Node) (b : string) : string :=
             match cs with
             | [] => b
             | child :: cs' => children cs' (collect child b)
             end) (ChildNodes n) b in
        if isBlockish name then b +:+ LF else b
  | _ => b
  end.

(** [for _, n := range selec.Nodes { collect(n, &b) }] on a fresh builder. *)
Definition collectNodes (selec : Selection) : string :=
  fold_left
    (fun b p =>
       match nodeAt (document selec) p with
       | Some n => collect n b
       | None => b
       end)
    (Nodes selec) EmptyString.

(** [strings.Fields] on ASCII text: the maximal runs of bytes that are not
    white space. *)
Definition isSpace (c : ascii) : bool :=
  let n := nat_of_ascii c in
  ((9 <=? n) && (n <=? 13)) || (n =? 32).

Fixpoint Fields (s : string) : list string :=
  match s with
  | EmptyString => []
  | String c s' =>
      if isSpace c then Fields s'
      else
        match s' with
        | EmptyString => [String c EmptyString]
        | String c' _ =>
            if isSpace c' then String c EmptyString :: Fields s'
            else
              match Fields s' with
              | t :: ts => String c t :: ts
              | [] => [String c EmptyString]
              end
        end
  end.

(** [strings.TrimPrefix] *)
Definition TrimPrefix (s prefix : string) : string :=
  if HasPrefix s prefix
  then String.substring (String.length prefix) (String.length s - String.length prefix) s
  else s.

(** The loop of [detectLang] over the fields of the class list. *)
Fixpoint detectLangIn (parts : list string) : string :=
  match parts with
  | [] => EmptyString
  | part :: rest =>
      if HasPrefix part "language-" then TrimPrefix part "language-"
      else if HasPrefix part "lang-" then TrimPrefix part "lang-"
      else detectLangIn rest
  end.

(** [detectLang] *)
Definition detectLang (sel : Selection) : string :=
  let classes := AttrOr sel "class" "" in
  let lower := ToLower classes in
  detectLangIn (Fields lower).

Section Rules.
(** [utf8.DecodeRuneInString] of the Go standard library, and the two
    helpers of package [md] that the rules call and that are not among
    the sources. *)
Variable rune : Type.
Variable DecodeRuneInString : string -> rune * nat.
Variable CalculateCodeFence : rune -> string -> string.
Variable TrimTrailingSpaces : string -> string.

(** The [Replacement] of [preRule]. *)
Definition preReplacement : simpleRuleFunc :=
  fun _ selec opt =>
    let codeSel := First (Find selec "code") in
    let lang := detectLang codeSel in
    let lang := if String.eqb lang "" then detectLang selec else lang in
    let content := TrimRightLF (collectNodes selec) in
    let fenceChar := fst (DecodeRuneInString (Fence opt)) in
    let fence := CalculateCodeFence fenceChar content in
    let text := LF +:+ LF +:+ fence +:+ lang +:+ LF +:+ content +:+ LF +:+ fence +:+ LF +:+ LF in
    Some text.

(** The [Replacement] of [codeRule]. *)
Definition codeReplacement : simpleRuleFunc :=
  fun _ selec opt =>
    if negb (Nat.eqb (Length (ParentsFiltered selec "pre")) 0) then None
    else
      let code := collectNodes selec in
      let code := TrimTrailingSpaces (ReplaceAll code CRLF LF) in
      let fence :=
        if Contains code "`" then
          if Contains code "``" then "```" else "``"
        else "`" in
      let out := fence +:+ code +:+ fence in
      Some out.

Definition preRule : Rule := mkRule ["pre"] (Some preReplacement) None.
Definition codeRule : Rule := mkRule ["code"] (Some codeReplacement) None.

(** The rules the plugin returns. *)
Definition RobustCodeBlock : list Rule := [preRule; codeRule].
End Rules.

End RobustCodeBlock.

(** ** The statements of the specification, as definitions *)

Module Spec.

(** "Concatenating two fragments inserts exactly one blank line between
    them unless either side is empty." *)
Definition joinWithBlankLine (current addition : string) : string :=
  if String.eqb current "" then addition
  else if String.eqb addition "" then current
  else current +:+ LF +:+ LF +:+ addition.

(** A fragment as a block of lines: a non-empty fragment that does not end
    with a line feed is given one. *)
Definition terminated (s : string) : string :=
  if String.eqb s "" || HasSuffix s LF then s else s +:+ LF.

(** Two fragments as blocks of lines one after the other; an empty addition
    adds nothing. *)
Definition joinBlocks (current addition : string) : string :=
  if String.eqb addition "" then current
  else terminated current +:+ terminated addition.

(** The results of the replacements of a tag on a node, "from
    most-recently-registered to least-recently-registered". *)
Definition mostRecentFirst (rs : list ruleFunc)
    (markdown : string) (selec : Selection) (opt : Options) : list (AdvancedResult * bool) :=
  map (fun rule => rule markdown selec opt) (rev rs).

(** "The first one that does not explicitly skip wins." *)
Definition firstNotSkipping (results : list (AdvancedResult * bool)) : option AdvancedResult :=
  fst <$> find (fun r => negb (snd r)) results.

(** The text of a list of fragments, "concatenation, not
    accumulate-with-blank-line". *)
Definition concatenation (fragments : list string) : string :=
  fold_right String.append EmptyString fragments.

Section Walk.
Variable getRuleFuncs : Converter -> string -> option (list ruleFunc).

(** The children of the selected nodes whose name is not registered as
    removed, in document order. *)
Definition kept (conv : Converter) (selec : Selection) : list Selection :=
  filter (fun s => NodeName s ∉ remove conv) (each (Contents selec)).

(** "The chosen fragment is the rule result's Markdown when some rule did
    not skip and otherwise the child's own recursively rendered
    Markdown." *)
Definition chosenFragment (conv : Converter) (opt : Options) (s : Selection) : string :=
  let content := selecToMD getRuleFuncs conv s opt in
  match getRuleFuncs conv (NodeName s) ≫= fun rs =>
          firstNotSkipping (mostRecentFirst rs (Markdown content) s opt) with
  | Some res => Markdown res
  | None => Markdown content
  end.

(** The Header (or the Footer, by [part]) of the children merged into the
    running one of the parent: for each child, what its rendering floats
    up and then what its rule adds. *)
Definition mergedUpward (part : AdvancedResult -> string)
    (conv : Converter) (opt : Options) (children : list Selection) : string :=
  fold_left
    (fun running s =>
       let content := selecToMD getRuleFuncs conv s opt in
       let ruleResult := fst (applyRules getRuleFuncs conv (NodeName s) (Markdown content) s opt) in
       appendBlock (appendBlock running (part content)) (part ruleResult))
    children EmptyString.
End Walk.

(** The tag of an element; the names of HTML tags do not depend on case. *)
Definition tag (n : Node) : string := ToLower (Data n).

(** "Any element whose class attribute contains gutter or line-numbers
    (case-insensitive substring match)". *)
Definition hasGutterClass (n : Node) : bool :=
  existsb (fun a => String.eqb (Key a) "class" &&
                    (Contains (ToLower (Val a)) "gutter" ||
                     Contains (ToLower (Val a)) "line-numbers")) (Attr n).

(** The code text of a subtree: "emits text node content verbatim; emits a
    newline for [<br>]; skips (does not recurse into) any element whose
    class attribute contains gutter or line-numbers; after visiting an
    element's children, emits one trailing newline if the element is one
    of a fixed set of block-ish tags". *)
Fixpoint codeText (n : Node) : string :=
  match NType n with
  | TextNode => Data n
  | ElementNode =>
      if hasGutterClass n then EmptyString
      else
        (if String.eqb (tag n) "br" then LF else EmptyString)
        +:+ concatenation (map codeText (ChildNodes n))
        +:+ (if bool_decide (tag n ∈ RobustCodeBlock.blockish) then LF else EmptyString)
  | _ => EmptyString
  end.

(** Every element of the subtree has a tag name, as in a parsed
    document. *)
Fixpoint named (n : Node) : bool :=
  (negb (isElement n) || negb (String.eqb (Data n) "")) && forallb named (ChildNodes n).

(** "A row is a heading row if its parent is a [<thead>], OR it is the
    first element child of the [<table>] (or of the first [<tbody>],
    itself the table's first element child) AND every one of its direct
    cell children is a header cell." [row] points to the row. *)
Definition isFirstElementChild (root : Node) (p : Path) : bool :=
  match parentPath p with
  | Some pp => bool_decide (Table.firstElementChild root pp = Some p)
  | None => false
  end.

Definition parentIs (root : Node) (tag : string) (p : Path) : bool :=
  match parentPath p with
  | Some pp => matchesTag root tag pp
  | None => false
  end.

Definition isHeadingRow (root : Node) (row : Path) : bool :=
  parentIs root "thead" row
  || ((parentIs root "table" row && isFirstElementChild root row
       || parentIs root "tbody" row && isFirstElementChild root row
          && from_option (fun body => parentIs root "table" body && isFirstElementChild root body)
               false (parentPath row))
      && forallb (matchesTag root "th") (elementChildPaths root row)).

(** The number of columns of a row of a Markdown table: the cells are what
    the pipes delimit. *)
Fixpoint pipes (row : string) : nat :=
  match row with
  | EmptyString => 0
  | String c row' => (if Ascii.eqb c "|" then 1 else 0) + pipes row'
  end.

Definition columns (row : string) : nat := pipes row - 1.

(** The number of element children of each [<tr>] of the subtree of the
    selected table. *)
Definition rowSizes (table : Selection) : list nat :=
  map (fun row => length (elementChildPaths (document table) row))
    (Nodes (Find table "tr")).

(** A run of [n] backticks. *)
Definition backticks (n : nat) : string := Repeat "`" n.

(** "Collapse CRLF to LF, then pick the shortest backtick run (1, 2, or 3
    backticks) not already present in the code text as the surrounding
    delimiter": [out] is the text [code] in that delimiter. *)
Definition shortestAbsentFence (code out : string) : Prop :=
  ∃ n, 1 ≤ n ≤ 3
       ∧ Contains code (backticks n) = false
       ∧ (∀ m, 1 ≤ m < n → Contains code (backticks m) = true)
       ∧ out = backticks n +:+ code +:+ backticks n.

End Spec.

(** ** Documents and converters to evaluate the definitions on *)

Module Examples.

Definition elem (tag : string) (attrs : list Attribute) (children : list Node) : Node :=
  mkNode ElementNode tag attrs children.
Definition text (data : string) : Node := mkNode TextNode data [] [].

Definition options : Options :=
  mkOptions "atx" "* * *" "-" "indented" "```" "_" "**" "inlined" "full" "basic" ""
    (fun _ rawURL _ => rawURL).

(** The root of a document, as a selection. *)
Definition rootOf (doc : Node) : Selection := mkSelection doc [[]].

(** [<table><tbody><tr><th>A</th></tr></tbody><tbody><tr><td>1</td></tr></tbody></table>] *)
Definition twoBodies : Node :=
  elem "table" []
    [elem "tbody" [] [elem "tr" [] [elem "th" [] [text "A"]]];
     elem "tbody" [] [elem "tr" [] [elem "td" [] [text "1"]]]].

(** [<table> <tbody> <tr><th>A</th></tr><tr><td>1</td></tr></tbody></table>],
    with text between the tags. *)
Definition oneBody : Node :=
  elem "table" []
    [text " ";
     elem "tbody" []
       [text " ";
        elem "tr" [] [elem "th" [] [text "A"]];
        elem "tr" [] [elem "td" [] [text "1"]]]].

(** A table without header, with a row of two cells and a row of three. *)
Definition rows23 : Node :=
  elem "table" []
    [elem "tr" [] [elem "td" [] [text "a"]; elem "td" [] [text "b"]];
     elem "tr" [] [elem "td" [] [text "c"]; elem "td" [] [text "d"]; elem "td" [] [text "e"]]].

(** [<p><code>a`b</code></p>] and [<p><code>```</code></p>] *)
Definition codeOneTick : Node := elem "p" [] [elem "code" [] [text "a`b"]].
Definition codeThreeTicks : Node := elem "p" [] [elem "code" [] [text "```"]].

(** [<p>Use <code>echo `hello`</code> command</p>], of the tests of the
    plugin. *)
Definition codeEcho : Node :=
  elem "p" [] [text "Use "; elem "code" [] [text "echo `hello`"]; text " command"].

(** A highlighted block: a gutter column, two lines in [<div>]s and a
    [<br>]. *)
Definition highlighted : Node :=
  elem "pre" []
    [elem "code" [mkAttr "class" "language-go"]
       [elem "div" [mkAttr "class" "x Gutter"] [text "1"];
        elem "div" [] [text "line1"];
        elem "br" [] [];
        elem "div" [] [text "line2"]]].

(** [<div><pre><span>secret</span></pre></div>] *)
Definition preWithSpan : Node :=
  elem "div" [] [elem "pre" [] [elem "span" [] [text "secret"]]].

(** A converter with the RobustCodeBlock plugin that removes [<span>]. *)
Definition robust (rune : Type) (decode : string -> rune * nat)
    (fence : rune -> string -> string) (trim : string -> string) : Converter :=
  mkConverter
    {[ "pre" := [wrap (RobustCodeBlock.preReplacement rune decode fence)];
       "code" := [wrap (RobustCodeBlock.codeReplacement trim)] ]}
    {[ "span" ]}.

(** Three replacements for [<p>], registered in this order: the first
    brackets the content, the second stars it, the last one skips. *)
Definition bracket : ruleFunc := wrap (fun content _ _ => Some ("[" +:+ content +:+ "]")).
Definition star : ruleFunc :=
  fun content _ _ => (mkResult "top" ("*" +:+ content +:+ "*") "bottom", false).
Definition skipping : ruleFunc := wrap (fun _ _ _ => None).
Definition textRule : ruleFunc :=
  fun _ selec _ => (mkResult "" (from_option Data "" (Get0 selec)) "", false).

Definition threeRules : Converter :=
  mkConverter {[ "p" := [bracket; star; skipping]; "#text" := [textRule] ]} {[ "script" ]}.

(** [<div><p>a</p><script>x</script><p>b</p></div>] *)
Definition paragraphs : Node :=
  elem "div" []
    [elem "p" [] [text "a"]; elem "script" [] [text "x"]; elem "p" [] [text "b"]].

(** A serializer that fails on every node. *)
Definition failingRender (n : Node) : rendered := RenderErr "short write".

End Examples.

(* ====================================================================== *)
(** * Definitions: the rest of the sources *)
(* ====================================================================== *)

(** ** Packages [strings] and [regexp] of the Go standard library *)

Module GoText.

(** The code points for which [unicode.IsSpace] holds, each as the bytes of
    its encoding in UTF-8: tab, line feed, vertical tab, form feed, carriage
    return and space; U+0085 and U+00A0; U+1680; U+2000 to U+200A; U+2028,
    U+2029, U+202F, U+205F and U+3000. *)
Definition spaceRunes : list (list nat) :=
  [[9]; [10]; [11]; [12]; [13]; [32];
   [194; 133]; [194; 160];
   [225; 154; 128];
   [226; 128; 128]; [226; 128; 129]; [226; 128; 130]; [226; 128; 131];
   [226; 128; 132]; [226; 128; 133]; [226; 128; 134]; [226; 128; 135];
   [226; 128; 136]; [226; 128; 137]; [226; 128; 138];
   [226; 128; 168]; [226; 128; 169]; [226; 128; 175];
   [226; 129; 159];
   [227; 128; 128]].

Definition bytes (l : list nat) : string := string_of_list_ascii (map ascii_of_nat l).

(** The width in bytes of the rune at the start of [s] when it is one of
    [runes], and 0 otherwise. The decoder of package [utf8] accepts no other
    encoding of a code point than the shortest one, so the rune at the start
    is a space exactly when its bytes are a prefix of [s]. *)
Definition widthOf (runes : list string) (s : string) : nat :=
  from_option String.length 0 (find (fun r => String.prefix r s) runes).

(** Drop the runes of [runes] at the start of [s]; [skip] counts the bytes of
    the rune found that are still to be dropped. *)
Fixpoint trimLeftFrom (runes : list string) (skip : nat) (s : string) : string :=
  match s with
  | EmptyString => EmptyString
  | String c s' =>
      match skip with
      | S k => trimLeftFrom runes k s'
      | O =>
          match widthOf runes s with
          | O => s
          | S k => trimLeftFrom runes k s'
          end
      end
  end.

(** [strings.TrimLeftFunc(s, unicode.IsSpace)] *)
Definition TrimLeftSpace (s : string) : string :=
  trimLeftFrom (map bytes spaceRunes) 0 s.

(** [strings.TrimRightFunc(s, unicode.IsSpace)]: [utf8.DecodeLastRuneInString]
    goes back from the end to the first byte that starts a rune, so the last
    rune is a space exactly when its bytes are a suffix of [s]; the bytes are
    read here from the end to the start. *)
Definition TrimRightSpace (s : string) : string :=
  String.rev (trimLeftFrom (map (fun r => bytes (rev r)) spaceRunes) 0 (String.rev s)).

(** [strings.TrimSpace]: the spaces at the start are dropped, then those at
    the end. *)
Definition TrimSpace (s : string) : string := TrimRightSpace (TrimLeftSpace s).

(** The line-break tag that replaces the line ends of a cell. *)
Definition br : string := "<br>".

(** [newLineRe.ReplaceAllString(s, "<br>")] for
    [newLineRe = regexp.MustCompile(`(\r?\n)+`)]: each maximal run of line
    ends, a line end being LF or CRLF, is replaced by one [<br>]. [skip]
    counts the bytes of a matched line end that are still to be dropped and
    [inRun] tells that the bytes before belong to a run already replaced. *)
Fixpoint replaceNewlinesFrom (skip : nat) (inRun : bool) (s : string) : string :=
  match s with
  | EmptyString => EmptyString
  | String c s' =>
      match skip with
      | S k => replaceNewlinesFrom k inRun s'
      | O =>
          if String.prefix LF s
          then (if inRun then EmptyString else br) +:+ replaceNewlinesFrom 0 true s'
          else if String.prefix CRLF s
          then (if inRun then EmptyString else br) +:+ replaceNewlinesFrom 1 true s'
          else String c (replaceNewlinesFrom 0 false s')
      end
  end.

Definition ReplaceNewlines (s : string) : string := replaceNewlinesFrom 0 false s.

End GoText.

(** ** Package [goquery]: text, attributes and the next sibling *)

Module Goquery.

(** The function [f] of [Text]: the content of a text node, then the text
    of the children. *)
Fixpoint nodeText (n : Node) : string :=
  (if bool_decide (NType n = TextNode) then Data n else EmptyString)
  +:+ (fix children (cs : list Node) : string :=
         match cs with
         | [] => EmptyString
         | c :: cs' => nodeText c +:+ children cs'
         end) (ChildNodes n).

(** [s.Text()]: the text of the selected nodes and of their descendants. *)
Definition Text (s : Selection) : string :=
  fold_left
    (fun buf p =>
       match nodeAt (document s) p with
       | Some n => buf +:+ nodeText n
       | None => buf
       end)
    (Nodes s) EmptyString.

(** [s.Attr(name)]: the value of the attribute of the first node, [None]
    when the selection is empty or the node has no such attribute. *)
Definition Attr (s : Selection) (name : string) : option string :=
  Get0 s ≫= fun n => attrOf n name.

(** The next sibling of the node at [p] that is an element, if any. *)
Definition nextElementSibling (root : Node) (p : Path) : list Path :=
  match parentPath p with
  | Some pp =>
      let i := List.last p 0 in
      option_list
        (find (isElementAt root)
           (filter (fun c => i < List.last c 0) (childPaths root pp)))
  | None => []
  end.

(** [s.Next()]: for each selected node, the sibling that follows it
    immediately among the elements. *)
Definition Next (s : Selection) : Selection :=
  mkSelection (document s) (mapNodes (Nodes s) (nextElementSibling (document s))).

End Goquery.

(** ** [plugin/table.go]: the cells and the rows of the Table plugin *)

Module TableRules.
Import GoText.

(** [getCellContent] *)
Definition getCellContent (content : string) (s : Selection) : string :=
  let content := TrimSpace content in
  let content :=
    if Nat.eqb (Length (Find s "table")) 0 then ReplaceNewlines content else content in
  let parent := Parent s in
  let isFirst :=
    match Nodes s, Nodes parent with
    | sNode :: _, parentNode :: _ =>
        match Table.firstElementChild (document s) parentNode with
        | Some child => bool_decide (child = sNode)
        | None => false
        end
    | _, _ => false
    end in
  let prefix := if isFirst then "| " else " " in
  prefix +:+ content +:+ " |".

(** The [Replacement] of the rule for [th] and [td]. *)
Definition cellReplacement : simpleRuleFunc :=
  fun content selec opt => Some (getCellContent content selec).

(** The divider of a cell of a heading row, by its [align] attribute. *)
Definition border (s : Selection) : string :=
  match Goquery.Attr s "align" with
  | Some align =>
      if String.eqb align "left" then ":--"
      else if String.eqb align "right" then "--:"
      else if String.eqb align "center" then ":-:"
      else "---"
  | None => "---"
  end.

(** The [Replacement] of the rule for [tr]. *)
Definition rowReplacement : simpleRuleFunc :=
  fun content selec opt =>
    let borderCells :=
      if Table.isHeadingRow selec then
        fold_left
          (fun borderCells s => borderCells +:+ getCellContent (border s) s)
          (each (Children selec)) EmptyString
      else EmptyString in
    let text := LF +:+ content in
    let text :=
      if negb (String.eqb borderCells "") then text +:+ LF +:+ borderCells else text in
    Some text.

(** The rules the Table plugin returns. The hook it installs with [Before],
    which moves a [<caption>] behind its table, changes the document before
    the walk and has no counterpart here. *)
Definition Table : list Rule :=
  [Table.tableRule;
   mkRule ["th"; "td"] (Some cellReplacement) None;
   mkRule ["tr"] (Some rowReplacement) None].

End TableRules.

(** ** [plugin/table.go]: the TableCompat plugin *)

Module TableCompat.
Import GoText.

(** The separator [" · "]: a space, the two bytes of the middle dot in
    UTF-8 and a space. *)
Definition separator : string :=
  String " " (String "194" (String "183" (String " " EmptyString))).

(** The [Replacement] of the rule for [td] and [th]. *)
Definition cellReplacement : simpleRuleFunc :=
  fun content selec opt =>
    let content := TrimSpace content in
    if String.eqb content "" then Some content
    else
      let next := Goquery.Next selec in
      let nextIsEmpty := String.eqb (TrimSpace (Goquery.Text next)) "" in
      let content :=
        if (Is next "td" || Is next "th") && negb nextIsEmpty
        then content +:+ separator else content in
      Some content.

(** The [Replacement] of the rule for [tr]. *)
Definition rowReplacement : simpleRuleFunc :=
  fun content selec opt =>
    let content := content +:+ LF +:+ LF in
    Some content.

(** The rules the plugin returns. *)
Definition TableCompat : list Rule :=
  [mkRule ["td"; "th"] (Some cellReplacement) None;
   mkRule ["tr"] (Some rowReplacement) None].

End TableCompat.

(** ** [markdown.go]: absolute URLs *)

(** The fields of a [url.URL] that [DefaultGetAbsoluteURL] reads and writes;
    [rest] stands for the others. *)
Record URL (R : Type) := mkURL { Scheme : string; Host : string; rest : R }.
Arguments mkURL {R} Scheme Host rest.
Arguments Scheme {R} u.
Arguments Host {R} u.
Arguments rest {R} u.

Section AbsoluteURL.
(** [url.Parse] and the method [String] of a URL, of package [net/url]. *)
Variable R : Type.
Variable Parse : string -> URL R + string.
Variable URLString : URL R -> string.

(** [DefaultGetAbsoluteURL] *)
Definition DefaultGetAbsoluteURL (selec : Selection) (rawURL domain : string) : string :=
  if String.eqb domain "" then rawURL
  else
    match Parse rawURL with
    | inr err => rawURL
    | inl u =>
        if String.eqb (Scheme u) "data" then rawURL
        else
          let u := if String.eqb (Scheme u) "" then mkURL "http" (Host u) (rest u) else u in
          let u := if String.eqb (Host u) "" then mkURL (Scheme u) domain (rest u) else u in
          URLString u
    end.
End AbsoluteURL.

(** ** Predicates on documents for the statements below *)

Module Props.

(** The node at [p] has no sibling that is an element. *)
Definition hasNoElementSibling (root : Node) (p : Path) : bool :=
  match parentPath p with
  | Some pp => forallb (fun c => bool_decide (c = p)) (elementChildPaths root pp)
  | None => true
  end.

(** The Header and the Footer of a result are blocks of lines: empty, or
    ended by a line feed. *)
Definition blocks (r : AdvancedResult) : Prop :=
  (Header r = "" ∨ HasSuffix (Header r) LF = true)
  ∧ (Footer r = "" ∨ HasSuffix (Footer r) LF = true).

(** The divider line of a heading row with the given cells: the first cell
    opens the line with a pipe, and every cell closes with one. *)
Definition dividerRow (root : Node) (cells : list Path) : string :=
  match cells with
  | [] => EmptyString
  | c :: rest =>
      "| " +:+ TableRules.border (mkSelection root [c]) +:+ " |"
      +:+ Spec.concatenation
            (map (fun c => " " +:+ TableRules.border (mkSelection root [c]) +:+ " |") rest)
  end.

(** A subtree of text and inline markup only: no [<br>], no block-ish tag,
    no gutter class, and no children below a node that is not an element. *)
Fixpoint plain (n : Node) : bool :=
  match NType n with
  | ElementNode =>
      negb (Spec.hasGutterClass n)
      && negb (String.eqb (Spec.tag n) "br")
      && negb (RobustCodeBlock.isBlockish (Spec.tag n))
      && forallb plain (ChildNodes n)
  | _ => match ChildNodes n with [] => true | _ => false end
  end.

End Props.

(** ** More documents and converters to evaluate the definitions on *)

Module Cases.
Import Examples.

(** A function that skips, and returns a Header and a Footer all the
    same. *)
Definition noisySkip : ruleFunc :=
  fun content _ _ => (mkResult "lost" content "lost", true).

(** A converter whose only function, for every tag, is [noisySkip]. *)
Definition allSkip (conv : Converter) (tag : string) : option (list ruleFunc) :=
  Some [noisySkip].

(** A heading row in a [<thead>] whose first cell is a [<td>], with text
    between the tags and [align] attributes. *)
Definition headed : Node :=
  elem "table" []
    [text " ";
     elem "thead" []
       [elem "tr" []
          [text " ";
           elem "td" [mkAttr "align" "left"] [text " A "];
           elem "th" [mkAttr "align" "center"] [text "B"];
           elem "th" [] []]]].

(** [<pre><code class="Language-GO"><span>a</span> <span>b</span></code></pre>] *)
Definition spans : Node :=
  elem "pre" []
    [elem "code" [mkAttr "class" "Language-GO"]
       [elem "span" [] [text "a"]; text " "; elem "span" [] [text "b"]]].

End Cases.

(* ====================================================================== *)
(** * Theorems *)
(* ====================================================================== *)

(** ** Strings *)

Section StringFacts.
Implicit Types s t u : string.

Lemma append_nil_l s : "" +:+ s = s.
Proof. reflexivity. Qed.

Lemma append_cons c s t : String c s +:+ t = String c (s +:+ t).
Proof. reflexivity. Qed.

Lemma append_nil_r s : s +:+ "" = s.
Proof. induction s as [|c s IH]; [done|]. by rewrite append_cons, IH. Qed.

Lemma append_assoc s t u : (s +:+ t) +:+ u = s +:+ t +:+ u.
Proof. induction s as [|c s IH]; [done|]. by rewrite !append_cons, IH. Qed.

Lemma prefix_iff s t : String.prefix s t = true ↔ ∃ u, t = s +:+ u.
Proof.
  revert t. induction s as [|c s IH]; intros t.
  - destruct t; simpl; split; eauto.
  - destruct t as [|d t]; simpl.
    + split; [done|]. by intros [u ?].
    + destruct (ascii_dec c d) as [->|Hcd].
      * rewrite IH. split; intros [u Hu]; exists u.
        -- by rewrite append_cons, Hu.
        -- rewrite append_cons in Hu. by simplify_eq.
      * split; [done|]. intros [u Hu]. rewrite append_cons in Hu. by simplify_eq.
Qed.

Lemma HasSuffix_nil suffix : HasSuffix "" suffix = String.eqb "" suffix.
Proof. unfold HasSuffix. by rewrite orb_false_r. Qed.

Lemma HasSuffix_cons c s suffix :
  HasSuffix (String c s) suffix = String.eqb (String c s) suffix || HasSuffix s suffix.
Proof. reflexivity. Qed.

Lemma Contains_nil substr : Contains "" substr = String.prefix substr "".
Proof. unfold Contains. by rewrite orb_false_r. Qed.

Lemma Contains_cons c s substr :
  Contains (String c s) substr = String.prefix substr (String c s) || Contains s substr.
Proof. reflexivity. Qed.

(** [HasSuffix s suffix] holds exactly when [s] ends with [suffix]. *)
Lemma HasSuffix_iff s suffix : HasSuffix s suffix = true ↔ ∃ u, s = u +:+ suffix.
Proof.
  induction s as [|c s IH].
  - rewrite HasSuffix_nil, String.eqb_eq. split.
    + intros <-. by exists "".
    + intros [[|??] Hu]; [done|]. by rewrite append_cons in Hu.
  - rewrite HasSuffix_cons, orb_true_iff, String.eqb_eq, IH. split.
    + intros [<-|[u ->]]; [by exists ""|]. by exists (String c u).
    + intros [[|d u] Hu].
      * left. by rewrite append_nil_l in Hu.
      * right. rewrite append_cons in Hu. simplify_eq. by exists u.
Qed.

(** [Contains s substr] holds exactly when [substr] occurs in [s]. *)
Lemma Contains_iff s substr : Contains s substr = true ↔ ∃ u v, s = u +:+ substr +:+ v.
Proof.
  induction s as [|c s IH].
  - rewrite Contains_nil, prefix_iff. split.
    + intros [v Hv]. by exists "", v.
    + intros [[|??] [v Hv]]; [by exists v|]. by rewrite append_cons in Hv.
  - rewrite Contains_cons, orb_true_iff, IH, prefix_iff. split.
    + intros [[v Hv]|(u & v & ->)]; [by exists "", v|]. by exists (String c u), v.
    + intros ([|d u] & v & Hu).
      * left. by exists v.
      * right. rewrite append_cons in Hu. simplify_eq. by exists u, v.
Qed.

Lemma Contains_append_l s t substr :
  Contains t substr = true → Contains (s +:+ t) substr = true.
Proof.
  rewrite !Contains_iff. intros (u & v & ->).
  exists (s +:+ u), v. by rewrite append_assoc.
Qed.

Lemma Contains_append_r s t substr :
  Contains s substr = true → Contains (s +:+ t) substr = true.
Proof.
  rewrite !Contains_iff. intros (u & v & ->).
  exists u, (v +:+ t). by rewrite !append_assoc.
Qed.

Lemma HasSuffix_append s t : HasSuffix (s +:+ t) t = true.
Proof. apply HasSuffix_iff. by exists s. Qed.
End StringFacts.

(** ** Induction on documents *)

Lemma Node_ind (P : Node → Prop) :
  (∀ t d a cs, Forall P cs → P (mkNode t d a cs)) → ∀ n, P n.
Proof.
  intros Hnode. fix IH 1. intros [t d a cs]. apply Hnode.
  induction cs as [|c cs IHcs]; constructor; [apply IH|apply IHcs].
Qed.

(** ** Node pointers and selections *)

Lemma nodeAt_app root p q :
  nodeAt root (p ++ q) = nodeAt root p ≫= fun n => nodeAt n q.
Proof.
  revert root. induction p as [|i p IH]; intros root; simpl; [done|].
  destruct (ChildNodes root !! i) as [c|]; [apply IH|done].
Qed.

Lemma nodeAt_child root p n i :
  nodeAt root p = Some n → nodeAt root (p ++ [i]) = ChildNodes n !! i.
Proof.
  intros Hn. rewrite nodeAt_app, Hn. simpl. by destruct (ChildNodes n !! i).
Qed.

Lemma appendWithoutDuplicates_fresh target nodes :
  NoDup nodes → (∀ n, n ∈ nodes → n ∉ target) →
  appendWithoutDuplicates target nodes = target ++ nodes.
Proof.
  unfold appendWithoutDuplicates.
  revert target. induction nodes as [|n nodes IH]; intros target Hnd Hfresh; simpl.
  - by rewrite app_nil_r.
  - apply NoDup_cons in Hnd as [Hn Hnd].
    assert (pathIn n target = false) as ->.
    { unfold pathIn. apply bool_decide_eq_false_2, Hfresh. left. }
    rewrite IH; [by rewrite <-app_assoc|done|].
    intros m Hm [Hin|Hin%list_elem_of_singleton]%elem_of_app.
    + by apply (Hfresh m); [right|].
    + by subst.
Qed.

Lemma elem_of_appendWithoutDuplicates target nodes x :
  x ∈ appendWithoutDuplicates target nodes ↔ x ∈ target ∨ x ∈ nodes.
Proof.
  unfold appendWithoutDuplicates.
  revert target. induction nodes as [|n nodes IH]; intros target; simpl.
  - rewrite elem_of_nil. tauto.
  - rewrite IH, elem_of_cons. unfold pathIn. case_bool_decide as Hn.
    + split; [tauto|]. intros [?|[->|?]]; auto.
    + rewrite elem_of_app, list_elem_of_singleton. tauto.
Qed.

Lemma elem_of_mapNodes nodes f x :
  x ∈ mapNodes nodes f ↔ ∃ n, n ∈ nodes ∧ x ∈ f n.
Proof.
  unfold mapNodes.
  assert (∀ acc, x ∈ fold_left (λ acc n, appendWithoutDuplicates acc (f n)) nodes acc
                 ↔ x ∈ acc ∨ ∃ n, n ∈ nodes ∧ x ∈ f n) as Hgen.
  { induction nodes as [|n nodes IH]; intros acc; simpl.
    - split; [by left|]. intros [?|(n & Hn & _)]; [done|]. by apply elem_of_nil in Hn.
    - rewrite IH, elem_of_appendWithoutDuplicates. split.
      + intros [[?|?]|(m & ? & ?)]; [by left|right; exists n|right; exists m];
          split; try done; by constructor.
      + intros [?|(m & [->|Hm]%elem_of_cons & ?)]; [by left; left|by left; right|].
        right. by exists m. }
  rewrite Hgen, elem_of_nil. tauto.
Qed.

Lemma childPaths_NoDup root p : NoDup (childPaths root p).
Proof.
  unfold childPaths. destruct (nodeAt root p) as [n|]; [|constructor].
  apply NoDup_fmap_2; [|apply NoDup_seq].
  intros i j Hij. by apply app_inv_head in Hij; simplify_eq.
Qed.

Lemma mapNodes_single p f : NoDup (f p) → mapNodes [p] f = f p.
Proof.
  intros Hnd. unfold mapNodes; simpl.
  rewrite appendWithoutDuplicates_fresh; [done..|]. intros ? _. apply not_elem_of_nil.
Qed.

Lemma Contents_single root p :
  Nodes (Contents (mkSelection root [p])) = childPaths root p.
Proof. simpl. apply mapNodes_single, childPaths_NoDup. Qed.

(** ** Descendants *)

Lemma elem_of_childrenPaths (cs : list Node) (p : Path) (i : nat) (q : Path) :
  Forall (λ c, ∀ p q, q ∈ subtreePaths c p ↔ ∃ r, q = p ++ r ∧ is_Some (nodeAt c r)) cs →
  q ∈ (fix children (cs : list Node) (i : nat) : list Path :=
         match cs with
         | [] => []
         | c :: cs' => subtreePaths c (p ++ [i]) ++ children cs' (S i)
         end) cs i
  ↔ ∃ k c r, cs !! k = Some c ∧ q = p ++ (i + k) :: r ∧ is_Some (nodeAt c r).
Proof.
  intros Hcs. revert i. induction Hcs as [|c cs Hc _ IHcs]; intros i.
  - rewrite elem_of_nil. split; [done|]. by intros (k & c & r & Hk & _).
  - rewrite elem_of_app, Hc, IHcs. split.
    + intros [(r & -> & Hr)|(k & c' & r & Hk & -> & Hr)].
      * exists 0, c, r. rewrite Nat.add_0_r, <-app_assoc. done.
      * exists (S k), c', r. rewrite <-Nat.add_succ_comm. done.
    + intros ([|k] & c' & r & Hk & -> & Hr); simplify_eq/=.
      * left. exists r. by rewrite Nat.add_0_r, <-app_assoc.
      * right. exists k, c', r. by rewrite <-Nat.add_succ_comm.
Qed.

(** [subtreePaths n p] lists the nodes of the subtree [n], found at [p]. *)
Lemma elem_of_subtreePaths n p q :
  q ∈ subtreePaths n p ↔ ∃ r, q = p ++ r ∧ is_Some (nodeAt n r).
Proof.
  revert p q. induction n as [t d a cs IH] using Node_ind. intros p q.
  change (subtreePaths (mkNode t d a cs) p) with
    (p :: (fix children (cs : list Node) (i : nat) : list Path :=
             match cs with
             | [] => []
             | c :: cs' => subtreePaths c (p ++ [i]) ++ children cs' (S i)
             end) cs 0).
  rewrite elem_of_cons, (elem_of_childrenPaths cs p 0 q IH). split.
  - intros [->|(k & c & r & Hk & -> & Hr)].
    + exists []. by rewrite app_nil_r.
    + exists (k :: r). split; [done|]. simpl. by rewrite Hk.
  - intros ([|k r] & -> & Hr).
    + left. by rewrite app_nil_r.
    + right. simpl in Hr. destruct (cs !! k) as [c|] eqn:Hk; [|by destruct Hr].
      by exists k, c, r.
Qed.

(** The proper descendants of the node at [p] are the nodes of the document
    strictly below [p]. *)
Lemma elem_of_descendantPaths root p q :
  q ∈ descendantPaths root p ↔ ∃ r, r ≠ [] ∧ q = p ++ r ∧ is_Some (nodeAt root q).
Proof.
  unfold descendantPaths. destruct (nodeAt root p) as [n|] eqn:Hn.
  - destruct n as [t d a cs].
    change (tail (subtreePaths (mkNode t d a cs) p)) with
      ((fix children (cs : list Node) (i : nat) : list Path :=
          match cs with
          | [] => []
          | c :: cs' => subtreePaths c (p ++ [i]) ++ children cs' (S i)
          end) cs 0).
    rewrite elem_of_childrenPaths
      by (apply Forall_forall; intros; apply elem_of_subtreePaths).
    split.
    + intros (k & c & r & Hk & -> & Hr). exists (k :: r).
      split; [done|]. split; [done|].
      rewrite nodeAt_app, Hn. simpl. by rewrite Hk.
    + intros ([|k r] & Hne & -> & Hq); [done|].
      rewrite nodeAt_app, Hn in Hq. simpl in Hq.
      destruct (cs !! k) as [c|] eqn:Hk; [|by destruct Hq].
      by exists k, c, r.
  - rewrite elem_of_nil. split; [done|]. intros (r & _ & -> & Hq).
    rewrite nodeAt_app, Hn in Hq. by destruct Hq.
Qed.

(** [Find] selects the elements of the given tag strictly below a selected
    node. *)
Lemma elem_of_Find (s : Selection) (tag : string) (q : Path) :
  q ∈ Nodes (Find s tag)
  ↔ ∃ p r n, p ∈ Nodes s ∧ r ≠ [] ∧ q = p ++ r
             ∧ nodeAt (document s) q = Some n ∧ isElement n = true ∧ Data n = tag.
Proof.
  simpl. rewrite elem_of_mapNodes. split.
  - intros (p & Hp & Hq). apply list_elem_of_filter in Hq as [Hmatch Hq].
    apply elem_of_descendantPaths in Hq as (r & Hr & -> & Hnode).
    unfold matchesTag in Hmatch. destruct Hnode as [n Hn]. rewrite Hn in Hmatch.
    apply andb_true_iff in Hmatch as [He Hd%String.eqb_eq].
    by exists p, r, n.
  - intros (p & r & n & Hp & Hr & -> & Hn & He & Hd). exists p. split; [done|].
    apply list_elem_of_filter. split.
    + unfold matchesTag. rewrite Hn, He. by apply String.eqb_eq.
    + apply elem_of_descendantPaths. by exists r.
Qed.

(** [Find] selects nothing exactly when no element of the tag is strictly
    below a selected node. *)
Lemma Find_nil_iff (s : Selection) (tag : string) :
  Nodes (Find s tag) = []
  ↔ ∀ p r n, p ∈ Nodes s → r ≠ [] → nodeAt (document s) (p ++ r) = Some n →
             isElement n = true → Data n ≠ tag.
Proof.
  split.
  - intros Hnil p r n Hp Hr Hn He Hd.
    assert (p ++ r ∈ Nodes (Find s tag)) as Hin by (apply elem_of_Find; by exists p, r, n).
    rewrite Hnil in Hin. by apply elem_of_nil in Hin.
  - intros Hnone. apply elem_of_nil_inv. intros q (p & r & n & Hp & Hr & -> & Hn & He & Hd)%elem_of_Find.
    by apply (Hnone p r n).
Qed.

(** ** Ancestors *)

Lemma elem_of_ancestorPaths (p : Path) (fuel : nat) (a : Path) :
  length p ≤ fuel →
  a ∈ ancestorPaths p fuel ↔ ∃ r, r ≠ [] ∧ p = a ++ r.
Proof.
  revert p. induction fuel as [|k IH]; intros p Hlen.
  - destruct p; [|simpl in Hlen; lia]. simpl. rewrite elem_of_nil. split; [done|].
    intros (r & Hr & Hp). symmetry in Hp. apply app_eq_nil in Hp as [_ ->]. done.
  - destruct (decide (p = [])) as [->|Hp].
    { simpl. rewrite elem_of_nil. split; [done|].
      intros (r & Hr & Hnil). symmetry in Hnil. apply app_eq_nil in Hnil as [_ ->]. done. }
    assert (ancestorPaths p (S k) = removelast p :: ancestorPaths (removelast p) k) as ->.
    { by destruct p. }
    pose proof (app_removelast_last 0 Hp) as Hlast.
    assert (length (removelast p) ≤ k) as Hk.
    { apply (f_equal length) in Hlast. rewrite length_app in Hlast. simpl in Hlast. lia. }
    rewrite elem_of_cons, (IH _ Hk). split.
    + intros [->|(r & Hr & Heq)].
      * exists [List.last p 0]. done.
      * exists (r ++ [List.last p 0]). split; [by destruct r|].
        by rewrite app_assoc, <-Heq.
    + intros (r & Hr & ->).
      rewrite removelast_app by done.
      destruct (decide (removelast r = [])) as [Hnil|Hne].
      * left. by rewrite Hnil, app_nil_r.
      * right. by exists (removelast r).
Qed.

(** [ParentsFiltered] selects nothing exactly when no element of the tag is
    strictly above a selected node. *)
Lemma ParentsFiltered_nil_iff (s : Selection) (tag : string) :
  Nodes (ParentsFiltered s tag) = []
  ↔ ∀ a r n, a ++ r ∈ Nodes s → r ≠ [] → nodeAt (document s) a = Some n →
             isElement n = true → Data n ≠ tag.
Proof.
  split.
  - intros Hnil a r n Hp Hr Hn He Hd.
    assert (a ∈ Nodes (ParentsFiltered s tag)) as Hin.
    { simpl. apply elem_of_mapNodes. exists (a ++ r). split; [done|].
      apply list_elem_of_filter. split.
      - unfold matchesTag. rewrite Hn, He. by apply String.eqb_eq.
      - apply elem_of_ancestorPaths; [done|]. by exists r. }
    rewrite Hnil in Hin. by apply elem_of_nil in Hin.
  - intros Hnone. apply elem_of_nil_inv. intros a. simpl. rewrite elem_of_mapNodes.
    intros (p & Hp & [Hmatch Ha]%list_elem_of_filter).
    apply elem_of_ancestorPaths in Ha as (r & Hr & ->); [|done].
    unfold matchesTag in Hmatch. destruct (nodeAt (document s) a) as [n|] eqn:Hn; [|done].
    apply andb_true_iff in Hmatch as [He Hd%String.eqb_eq].
    by apply (Hnone a r n).
Qed.

(** ** Accumulation of Header and Footer *)

Lemma appendBlock_joinBlocks current addition :
  appendBlock current addition = Spec.joinBlocks current addition.
Proof.
  unfold appendBlock, Spec.joinBlocks, Spec.terminated.
  destruct (String.eqb addition "") eqn:Hadd; [done|].
  destruct (String.eqb current ""); simpl;
    destruct (HasSuffix current LF), (HasSuffix addition LF); simpl;
    by rewrite ?append_assoc.
Qed.

Lemma appendBlock_ends_with_LF current addition :
  String.eqb addition "" || HasSuffix (appendBlock current addition) LF = true.
Proof.
  unfold appendBlock.
  destruct (String.eqb addition "") eqn:Hadd; [done|]. simpl.
  destruct (HasSuffix addition LF) eqn:Hsuf; simpl.
  - apply HasSuffix_iff in Hsuf as [u ->].
    rewrite <-append_assoc. apply HasSuffix_append.
  - apply HasSuffix_append.
Qed.

(** C2, as the code has it: [accumulate] leaves the Markdown alone and joins
    the two Headers, and the two Footers, as blocks of lines. An empty
    addition leaves the current fragment as it is; otherwise the current
    fragment is followed by one line feed, unless it is empty or ends with
    one already, then by the addition, then by one line feed unless the
    addition ends with one already. The fragments are thus separated by a
    single line feed and the result ends with one. *)
Theorem accumulate_joins_blocks (result other : AdvancedResult) :
  Header (accumulate result other) = Spec.joinBlocks (Header result) (Header other)
  ∧ Footer (accumulate result other) = Spec.joinBlocks (Footer result) (Footer other)
  ∧ Markdown (accumulate result other) = Markdown result
  ∧ String.eqb (Header other) "" || HasSuffix (Header (accumulate result other)) LF = true
  ∧ String.eqb (Footer other) "" || HasSuffix (Footer (accumulate result other)) LF = true.
Proof.
  unfold accumulate; simpl.
  rewrite !appendBlock_joinBlocks. repeat split.
  - rewrite <-appendBlock_joinBlocks. apply appendBlock_ends_with_LF.
  - rewrite <-appendBlock_joinBlocks. apply appendBlock_ends_with_LF.
Qed.

(** C2, as stated, fails: two non-empty fragments are separated by one line
    feed and not by a blank line, and an empty current fragment followed by
    ["a"] gives ["a"] with a line feed, not ["a"]. *)
Lemma accumulate_inserts_no_blank_line :
  Header (accumulate (mkResult "a" "" "") (mkResult "b" "" "")) = "a" +:+ LF +:+ "b" +:+ LF
  ∧ Header (accumulate (mkResult "a" "" "") (mkResult "b" "" "")) ≠ Spec.joinWithBlankLine "a" "b"
  ∧ Footer (accumulate (mkResult "" "" "") (mkResult "" "" "a")) = "a" +:+ LF
  ∧ Footer (accumulate (mkResult "" "" "") (mkResult "" "" "a")) ≠ Spec.joinWithBlankLine "" "a".
Proof. repeat split; by vm_compute. Qed.

(** ** Precedence of the replacements of a tag *)

Lemma applyRulesFrom_take rs k markdown selec opt :
  k ≤ length rs →
  applyRulesFrom rs k markdown selec opt =
    match Spec.firstNotSkipping (Spec.mostRecentFirst (take k rs) markdown selec opt) with
    | Some res => (res, false)
    | None => (mkResult "" markdown "", true)
    end.
Proof.
  unfold Spec.firstNotSkipping, Spec.mostRecentFirst.
  induction k as [|i IH]; intros Hk; [done|].
  destruct (lookup_lt_is_Some_2 rs i) as [rule Hrule]; [lia|].
  rewrite (take_S_r _ _ _ Hrule), rev_app_distr.
  change (applyRulesFrom rs (S i) markdown selec opt) with
    (match rs !! i with
     | Some rule =>
         let '(res, skip) := rule markdown selec opt in
         if negb skip then (res, false) else applyRulesFrom rs i markdown selec opt
     | None => applyRulesFrom rs i markdown selec opt
     end).
  rewrite Hrule. simpl.
  destruct (rule markdown selec opt) as [res skip]. simpl.
  destruct skip; simpl; [|done]. apply IH. lia.
Qed.

Lemma applyRules_registered
    (getRuleFuncs : Converter → string → option (list ruleFunc))
    (conv : Converter) (nodeName markdown : string) (selec : Selection) (opt : Options)
    (rs : list ruleFunc) :
  getRuleFuncs conv nodeName = Some rs →
  applyRules getRuleFuncs conv nodeName markdown selec opt =
    match Spec.firstNotSkipping (Spec.mostRecentFirst rs markdown selec opt) with
    | Some res => (res, false)
    | None => (mkResult "" markdown "", true)
    end.
Proof.
  intros Hrs. unfold applyRules. rewrite Hrs.
  rewrite applyRulesFrom_take by done. by rewrite firstn_all.
Qed.

(** C1: when the registry holds the list [rs] for the tag of a node,
    [applyRules] takes the results of [rs] from the function registered last
    to the one registered first and returns the first that does not skip;
    when every function skips, and when [rs] is empty, it returns the
    rendered content of the children unchanged as the Markdown, and tells the
    walker to use it. *)
Theorem applyRules_precedence
    (getRuleFuncs : Converter → string → option (list ruleFunc))
    (conv : Converter) (nodeName markdown : string) (selec : Selection) (opt : Options)
    (rs : list ruleFunc) :
  getRuleFuncs conv nodeName = Some rs →
  applyRules getRuleFuncs conv nodeName markdown selec opt =
    match Spec.firstNotSkipping (Spec.mostRecentFirst rs markdown selec opt) with
    | Some res => (res, false)
    | None => (mkResult "" markdown "", true)
    end.
Proof.
  intros Hrs. unfold applyRules. rewrite Hrs.
  rewrite applyRulesFrom_take by done.
  by rewrite firstn_all.
Qed.

Lemma applyRules_precedence_witness :
  resolve Examples.threeRules "p" = Some [Examples.bracket; Examples.star; Examples.skipping]
  ∧ applyRules resolve Examples.threeRules "p" "x"
      (Examples.rootOf Examples.paragraphs) Examples.options
    = (mkResult "top" "*x*" "bottom", false).
Proof.
  split; [by vm_compute|].
  rewrite (applyRules_precedence resolve Examples.threeRules "p" "x" _ _
             [Examples.bracket; Examples.star; Examples.skipping]); by vm_compute.
Defined.

(** ** The root of the walk *)

(** C10: on the [nil] selection and on a selection without nodes,
    [applyRulesToSelection] returns the empty result, whatever the registry
    holds: no rule has a part in it. *)
Theorem applyRulesToSelection_empty
    (getRuleFuncs : Converter → string → option (list ruleFunc))
    (conv : Converter) (opt : Options) (doc : Node) :
  applyRulesToSelection getRuleFuncs conv None opt = mkResult "" "" ""
  ∧ applyRulesToSelection getRuleFuncs conv (Some (mkSelection doc [])) opt = mkResult "" "" "".
Proof.
  split.
  - reflexivity.
  - unfold applyRulesToSelection. simpl. reflexivity.
Qed.

(** ** The verbatim-keep rule *)

(** C9: when [html.Render] fails on the element of the selection,
    [ruleKeep] returns: it logs one line and gives the empty string (a
    pointer that is not [nil], so the node is not passed on to another
    rule), and no error reaches the caller. *)
Theorem ruleKeep_render_error
    (Render : Node → rendered) (content : string) (selec : Selection) (opt : Options)
    (element : Node) (err : string) :
  Get0 selec = Some element →
  Render element = RenderErr err →
  ∃ line, ruleKeep Render content selec opt = Returns ([line], Some "").
Proof.
  intros Hget Herr. unfold ruleKeep. rewrite Hget, Herr. eauto.
Qed.

Lemma ruleKeep_render_error_witness :
  ∃ line, ruleKeep Examples.failingRender "kept"
            (Examples.rootOf Examples.paragraphs) Examples.options
          = Returns ([line], Some "").
Proof.
  exact (ruleKeep_render_error Examples.failingRender "kept"
           (Examples.rootOf Examples.paragraphs) Examples.options
           Examples.paragraphs "short write" eq_refl eq_refl).
Defined.

(** ** The walk *)

Section EngineFacts.
Variable getRuleFuncs : Converter → string → option (list ruleFunc).
Variables (conv : Converter) (opt : Options).

Lemma visitChild_removed s content st :
  NodeName s ∈ remove conv → visitChild getRuleFuncs conv opt s content st = st.
Proof.
  intros Hrem. unfold visitChild. destruct st as [result builder].
  by rewrite bool_decide_eq_true_2.
Qed.

(** The loop over the children of [n] in [selecToMDNode] is the loop of
    [Each] over the selections of its children. *)
Lemma eachChild_fold root p n (F : walkState → Selection → walkState) cs i st :
  nodeAt root p = Some n →
  (∀ k, cs !! k = ChildNodes n !! (i + k)) →
  (∀ c j st', ChildNodes n !! j = Some c →
     F st' (mkSelection root [p ++ [j]]) =
       visitChild getRuleFuncs conv opt (mkSelection root [p ++ [j]])
         (selecToMDNode getRuleFuncs conv opt root c (p ++ [j])) st') →
  (fix eachChild (cs : list Node) (i : nat) (st : walkState) : walkState :=
     match cs with
     | [] => st
     | c :: cs' =>
         eachChild cs' (S i)
           (visitChild getRuleFuncs conv opt (mkSelection root [p ++ [i]])
              (selecToMDNode getRuleFuncs conv opt root c (p ++ [i])) st)
     end) cs i st
  = fold_left F (map (λ j, mkSelection root [p ++ [j]]) (seq i (length cs))) st.
Proof.
  intros Hn Hcs HF. revert i st Hcs.
  induction cs as [|c cs IH]; intros i st Hcs; [done|]. simpl.
  rewrite (HF c i st).
  2:{ pose proof (Hcs 0) as H0. rewrite Nat.add_0_r in H0. by rewrite <-H0. }
  apply IH. intros k. pose proof (Hcs (S k)) as Hk. simpl in Hk.
  rewrite Hk. f_equal. lia.
Qed.

(** The recursive call on a child is [selecToMD] on the selection of that
    child. *)
Lemma selecToMDChild_single root c :
  selecToMDChild getRuleFuncs conv opt (mkSelection root [c])
  = selecToMD getRuleFuncs conv (mkSelection root [c]) opt.
Proof.
  unfold selecToMDChild, selecToMD, each. rewrite Contents_single. simpl.
  unfold childPaths. destruct (nodeAt root c) as [n|] eqn:Hn; [|done].
  destruct n as [t d a cs]. simpl. f_equal.
  rewrite map_map.
  apply (eachChild_fold root c (mkNode t d a cs)); [done|done|].
  intros c' j st' Hj. unfold selecToMDChild. simpl.
  by rewrite (nodeAt_child _ _ _ _ Hn), Hj.
Qed.

(** [selecToMD] as [markdown.go] writes it: the callback of [Each] calls
    [selecToMD] on the child. *)
Lemma selecToMD_unfold selec :
  selecToMD getRuleFuncs conv selec opt =
    finishWalk
      (fold_left
         (λ st s, visitChild getRuleFuncs conv opt s (selecToMD getRuleFuncs conv s opt) st)
         (each (Contents selec)) (emptyResult, EmptyString)).
Proof.
  unfold selecToMD at 1. f_equal. unfold each.
  generalize (emptyResult, EmptyString) as st.
  induction (Nodes (Contents selec)) as [|c l IH]; intros st; [done|]. simpl.
  rewrite IH. unfold single. by rewrite <-selecToMDChild_single.
Qed.

Lemma fold_left_filter {A B} (P : B → Prop) `{!∀ x, Decision (P x)}
    (f : A → B → A) (l : list B) (a : A) :
  (∀ a x, ¬ P x → f a x = a) →
  fold_left f l a = fold_left f (filter P l) a.
Proof.
  intros Hskip. revert a. induction l as [|x l IH]; intros a; [done|].
  rewrite filter_cons. simpl. destruct (decide (P x)); simpl; [done|].
  by rewrite Hskip.
Qed.

Lemma selecToMD_kept selec :
  selecToMD getRuleFuncs conv selec opt =
    finishWalk
      (fold_left
         (λ st s, visitChild getRuleFuncs conv opt s (selecToMD getRuleFuncs conv s opt) st)
         (Spec.kept conv selec) (emptyResult, EmptyString)).
Proof.
  rewrite selecToMD_unfold. f_equal. unfold Spec.kept.
  apply (fold_left_filter (λ s, NodeName s ∉ remove conv)).
  intros st s Hs. apply visitChild_removed. by apply dec_stable.
Qed.
End EngineFacts.

Lemma resolve_nil_removed conv tag : resolve conv tag = None → tag ∈ remove conv.
Proof. unfold resolve. by destruct (decide (tag ∈ remove conv)). Qed.

(** C3, as the code has it: the walk over the children of the selected nodes
    is the walk over the children whose name is not registered as removed.
    A removed child is not rendered, no rule is applied to it, and it adds
    nothing to the Markdown, the Header or the Footer of the walk. (A rule
    of another node that reads the tree itself still sees the removed
    subtree.) *)
Theorem selecToMD_skips_removed
    (getRuleFuncs : Converter → string → option (list ruleFunc))
    (conv : Converter) (selec : Selection) (opt : Options) :
  selecToMD getRuleFuncs conv selec opt =
    finishWalk
      (fold_left
         (λ st s, visitChild getRuleFuncs conv opt s (selecToMD getRuleFuncs conv s opt) st)
         (filter (λ s, NodeName s ∉ remove conv) (each (Contents selec)))
         (emptyResult, EmptyString)).
Proof.
  rewrite selecToMD_unfold. f_equal.
  apply (fold_left_filter (λ s, NodeName s ∉ remove conv)).
  intros st s Hs. apply visitChild_removed.
  by apply dec_stable.
Qed.

(** C3, as stated, fails: with the RobustCodeBlock plugin and [<span>]
    removed, the text of the [<span>] of
    [<div><pre><span>secret</span></pre></div>] is in the Markdown of the
    conversion, whatever the fence calculator gives: the rule for [<pre>]
    collects the text from the nodes and not from the walk. *)
Lemma removed_text_reaches_output :
  NodeName (mkSelection Examples.preWithSpan [[0; 0]]) = "span"
  ∧ ∀ (rune : Type) (decode : string → rune * nat) (fence : rune → string → string)
      (trim : string → string),
      "span" ∈ remove (Examples.robust rune decode fence trim)
      ∧ Contains
          (Markdown
             (applyRulesToSelection resolve (Examples.robust rune decode fence trim)
                (Some (Examples.rootOf Examples.preWithSpan)) Examples.options))
          "secret" = true.
Proof.
  split; [by vm_compute|]. intros rune decode fence trim. split.
  { simpl. by apply elem_of_singleton. }
  set (f := fence (fst (decode "```")) "secret").
  assert (Markdown
            (applyRulesToSelection resolve (Examples.robust rune decode fence trim)
               (Some (Examples.rootOf Examples.preWithSpan)) Examples.options)
          = LF +:+ LF +:+ f +:+ LF +:+ "secret" +:+ LF +:+ f +:+ LF +:+ LF) as ->.
  { subst f. vm_compute. reflexivity. }
  do 4 apply Contains_append_l. by apply Contains_append_r.
Qed.

(** ** The Markdown, the Header and the Footer of a walk *)

Section WalkFacts.
Variable getRuleFuncs : Converter → string → option (list ruleFunc).
Variables (conv : Converter) (opt : Options).
Hypothesis nil_removed : ∀ tag, getRuleFuncs conv tag = None → tag ∈ remove conv.

Let content (s : Selection) := selecToMD getRuleFuncs conv s opt.
Let ruleResult (s : Selection) :=
  fst (applyRules getRuleFuncs conv (NodeName s) (Markdown (content s)) s opt).

Lemma visitChild_kept s result builder :
  NodeName s ∉ remove conv →
  visitChild getRuleFuncs conv opt s (content s) (result, builder)
  = (accumulate (accumulate result (content s)) (ruleResult s),
     builder +:+ Spec.chosenFragment getRuleFuncs conv opt s).
Proof using nil_removed.
  intros Hkept. unfold visitChild, ruleResult, Spec.chosenFragment.
  rewrite bool_decide_eq_false_2 by done. fold (content s).
  destruct (getRuleFuncs conv (NodeName s)) as [rs|] eqn:Hrs.
  - rewrite (applyRules_registered _ _ _ _ _ _ rs Hrs). simpl.
    by destruct (Spec.firstNotSkipping _).
  - by apply nil_removed in Hrs.
Qed.

Lemma walk_kept (l : list Selection) result builder :
  Forall (λ s, NodeName s ∉ remove conv) l →
  fold_left (λ st s, visitChild getRuleFuncs conv opt s (content s) st) l (result, builder)
  = (mkResult
       (fold_left (λ h s, appendBlock (appendBlock h (Header (content s))) (Header (ruleResult s)))
          l (Header result))
       (Markdown result)
       (fold_left (λ h s, appendBlock (appendBlock h (Footer (content s))) (Footer (ruleResult s)))
          l (Footer result)),
     builder +:+ Spec.concatenation (map (Spec.chosenFragment getRuleFuncs conv opt) l)).
Proof using nil_removed.
  intros Hl. revert result builder.
  induction Hl as [|s l Hs Hl IH]; intros result builder;
    cbn [fold_left List.map Spec.concatenation fold_right].
  - rewrite append_nil_r. by destruct result.
  - rewrite visitChild_kept by done. rewrite IH.
    cbn [accumulate Header Footer Markdown].
    by rewrite append_assoc.
Qed.
End WalkFacts.

(** C4: when the registry gives the [nil] list for removed tags only, the
    Markdown of a walk is the concatenation, in document order and with
    nothing in between, of the fragments chosen for the children that are
    not removed: the Markdown of the first rule that does not skip, and the
    Markdown of the child's own walk when every rule skips. The Header and
    the Footer of each such child, and those of its rule, are merged into
    the running Header and Footer. *)
Theorem selecToMD_concatenates
    (getRuleFuncs : Converter → string → option (list ruleFunc))
    (conv : Converter) (selec : Selection) (opt : Options) :
  (∀ tag, getRuleFuncs conv tag = None → tag ∈ remove conv) →
  Markdown (selecToMD getRuleFuncs conv selec opt)
    = Spec.concatenation
        (map (Spec.chosenFragment getRuleFuncs conv opt) (Spec.kept conv selec))
  ∧ Header (selecToMD getRuleFuncs conv selec opt)
    = Spec.mergedUpward getRuleFuncs Header conv opt (Spec.kept conv selec)
  ∧ Footer (selecToMD getRuleFuncs conv selec opt)
    = Spec.mergedUpward getRuleFuncs Footer conv opt (Spec.kept conv selec).
Proof.
  intros Hnil. rewrite selecToMD_kept.
  rewrite (walk_kept getRuleFuncs conv opt Hnil).
  - done.
  - unfold Spec.kept. apply Forall_forall. by intros s [Hs _]%list_elem_of_filter.
Qed.

Lemma selecToMD_concatenates_witness :
  Markdown (selecToMD resolve Examples.threeRules (Examples.rootOf Examples.paragraphs)
              Examples.options) = "*a**b*"
  ∧ Header (selecToMD resolve Examples.threeRules (Examples.rootOf Examples.paragraphs)
              Examples.options) = "top" +:+ LF +:+ "top" +:+ LF
  ∧ Footer (selecToMD resolve Examples.threeRules (Examples.rootOf Examples.paragraphs)
              Examples.options) = "bottom" +:+ LF +:+ "bottom" +:+ LF.
Proof.
  destruct (selecToMD_concatenates resolve Examples.threeRules
              (Examples.rootOf Examples.paragraphs) Examples.options
              (resolve_nil_removed Examples.threeRules)) as (-> & -> & ->).
  repeat split; by vm_compute.
Defined.

(** ** Heading rows *)

(** C5 at the first row of the first of two [<tbody>]: the row is the first
    element child of the first [<tbody>], that [<tbody>] is the first element
    child of the [<table>] and the only cell of the row is a [<th>], so the
    row is a heading row as the specification and the comment of
    [isHeadingRow] have it; [isFirstTbody] asks for a [<tbody>] without any
    element sibling, and [isHeadingRow] answers no. With one [<tbody>] the
    two agree, text nodes between the tags or not. *)
Theorem isHeadingRow_first_of_two_bodies :
  Spec.isHeadingRow Examples.twoBodies [0; 0] = true
  ∧ Table.isFirstTbody (mkSelection Examples.twoBodies [[0]]) = false
  ∧ Table.isHeadingRow (mkSelection Examples.twoBodies [[0; 0]]) = false
  ∧ Spec.isHeadingRow Examples.oneBody [1; 1] = true
  ∧ Table.isHeadingRow (mkSelection Examples.oneBody [[1; 1]]) = true.
Proof. repeat split; by vm_compute. Qed.

(** ** The header of a table without header *)

Lemma pipes_append s t : Spec.pipes (s +:+ t) = Spec.pipes s + Spec.pipes t.
Proof.
  induction s as [|c s IH]; [done|].
  rewrite append_cons. simpl. rewrite IH. lia.
Qed.

Lemma pipes_Repeat cell n : Spec.pipes (Repeat cell n) = n * Spec.pipes cell.
Proof.
  induction n as [|n IH]; [done|].
  simpl. rewrite pipes_append, IH. lia.
Qed.

Lemma columns_row cell n :
  Spec.pipes cell = 1 → Spec.columns ("|" +:+ Repeat cell n) = n.
Proof.
  intros Hcell. unfold Spec.columns.
  rewrite pipes_append, pipes_Repeat, Hcell. simpl. lia.
Qed.

Lemma elementChildPaths_NoDup root p : NoDup (elementChildPaths root p).
Proof. apply NoDup_filter, childPaths_NoDup. Qed.

Lemma Children_single root p :
  Nodes (Children (mkSelection root [p])) = elementChildPaths root p.
Proof. simpl. apply mapNodes_single, elementChildPaths_NoDup. Qed.

(** The loop of the table rule finds the maximum of the numbers of element
    children of the rows. *)
Lemma maxCount_rowSizes table :
  Table.maxCount (Find table "tr") = max_list (Spec.rowSizes table).
Proof.
  unfold Table.maxCount, Spec.rowSizes, each.
  transitivity (0 `max` max_list (map (λ row, length (elementChildPaths (document table) row))
                                   (Nodes (Find table "tr")))); [|done].
  generalize 0 as a.
  induction (Nodes (Find table "tr")) as [|row rows IH]; intros a; simpl; [lia|].
  rewrite IH. unfold Length, single. rewrite Children_single. simpl.
  destruct (Nat.ltb_spec a (length (elementChildPaths (document table) row))); lia.
Qed.

(** C6: for a [<table>] with no [<thead>] element and no [<th>] element
    anywhere below it, the table rule puts, before the content, a header row
    of empty cells and a divider row; both have as many columns as the
    largest number of element children of a [<tr>] below the table. *)
Theorem tableReplacement_synthesizes_header
    (content : string) (table : Selection) (opt : Options) :
  (∀ p r n, p ∈ Nodes table → r ≠ [] → nodeAt (document table) (p ++ r) = Some n →
            isElement n = true → Data n ≠ "thead" ∧ Data n ≠ "th") →
  ∃ header divider,
    Table.tableReplacement content table opt
      = Some (LF +:+ LF +:+ (header +:+ LF +:+ divider +:+ content) +:+ LF +:+ LF)
    ∧ header = "|" +:+ Repeat "     |" (max_list (Spec.rowSizes table))
    ∧ divider = "|" +:+ Repeat " --- |" (max_list (Spec.rowSizes table))
    ∧ Spec.columns header = max_list (Spec.rowSizes table)
    ∧ Spec.columns divider = max_list (Spec.rowSizes table).
Proof.
  intros Hnone.
  assert (Nodes (Find table "thead") = []) as Hthead.
  { apply Find_nil_iff. intros p r n Hp Hr Hn He. by apply (Hnone p r n). }
  assert (Nodes (Find table "th") = []) as Hth.
  { apply Find_nil_iff. intros p r n Hp Hr Hn He. by apply (Hnone p r n). }
  eexists _, _. split; [|split; [reflexivity|split; [reflexivity|]]].
  - unfold Table.tableReplacement, Length. rewrite Hthead, Hth. simpl.
    by rewrite maxCount_rowSizes.
  - split; by apply columns_row.
Qed.

Lemma tableReplacement_synthesizes_header_witness :
  Spec.rowSizes (Examples.rootOf Examples.rows23) = [2; 3]
  ∧ Table.tableReplacement "X" (Examples.rootOf Examples.rows23) Examples.options
    = Some (LF +:+ LF +:+ "|     |     |     |" +:+ LF +:+ "| --- | --- | --- |" +:+ "X"
            +:+ LF +:+ LF).
Proof.
  split; [by vm_compute|].
  destruct (tableReplacement_synthesizes_header "X" (Examples.rootOf Examples.rows23)
              Examples.options
              (λ p r n Hp Hr Hn He,
                 conj (proj1 (Find_nil_iff (Examples.rootOf Examples.rows23) "thead")
                         eq_refl p r n Hp Hr Hn He)
                      (proj1 (Find_nil_iff (Examples.rootOf Examples.rows23) "th")
                         eq_refl p r n Hp Hr Hn He)))
    as (header & divider & -> & -> & -> & _).
  by vm_compute.
Defined.

(** ** Inline code *)

Lemma Contains_two_one s : Contains s "``" = true → Contains s "`" = true.
Proof.
  rewrite !Contains_iff. intros (u & v & ->). by exists u, ("`" +:+ v).
Qed.

(** C7, as the code has it: for a [<code>] with no [<pre>] element above it,
    the inline-code rule replaces the CRLF of the collected text by LF,
    passes the text through [TrimTrailingSpaces], and wraps the text it gets
    in a run of one, two or three backticks: every shorter run occurs in the
    text, and the run itself does not occur in it unless it is the run of
    three, which is also used when all three runs occur. A text with two
    backticks in a row is always wrapped in three. *)
Theorem codeReplacement_fence
    (TrimTrailingSpaces : string → string)
    (content : string) (selec : Selection) (opt : Options) :
  (∀ a r n, a ++ r ∈ Nodes selec → r ≠ [] → nodeAt (document selec) a = Some n →
            isElement n = true → Data n ≠ "pre") →
  ∃ n, 1 ≤ n ≤ 3
    ∧ RobustCodeBlock.codeReplacement TrimTrailingSpaces content selec opt
      = Some (Spec.backticks n
              +:+ TrimTrailingSpaces (ReplaceAll (RobustCodeBlock.collectNodes selec) CRLF LF)
              +:+ Spec.backticks n)
    ∧ (∀ m, 1 ≤ m < n →
         Contains (TrimTrailingSpaces (ReplaceAll (RobustCodeBlock.collectNodes selec) CRLF LF))
           (Spec.backticks m) = true)
    ∧ (n < 3 →
         Contains (TrimTrailingSpaces (ReplaceAll (RobustCodeBlock.collectNodes selec) CRLF LF))
           (Spec.backticks n) = false)
    ∧ (Contains (TrimTrailingSpaces (ReplaceAll (RobustCodeBlock.collectNodes selec) CRLF LF))
         "``" = true → n = 3).
Proof.
  intros Hpre%ParentsFiltered_nil_iff.
  unfold RobustCodeBlock.codeReplacement, Length. rewrite Hpre. simpl.
  set (code := TrimTrailingSpaces _).
  destruct (Contains code "`") eqn:H1; [destruct (Contains code "``") eqn:H2|].
  - exists 3. split; [lia|]. split; [done|]. split; [|split; [lia|done]].
    intros m Hm. assert (m = 1 ∨ m = 2) as [-> | ->] by lia; done.
  - exists 2. split; [lia|]. split; [done|]. split; [|done].
    intros m Hm. by assert (m = 1) as -> by lia.
  - exists 1. split; [lia|]. split; [done|]. split; [intros m Hm; lia|]. split; [done|].
    intros H2%Contains_two_one. congruence.
Qed.

Lemma codeReplacement_fence_witness :
  RobustCodeBlock.codeReplacement (λ s, s) "" (mkSelection Examples.codeOneTick [[0]])
    Examples.options = Some "``a`b``".
Proof.
  destruct (codeReplacement_fence (λ s, s) "" (mkSelection Examples.codeOneTick [[0]])
              Examples.options
              (proj1 (ParentsFiltered_nil_iff (mkSelection Examples.codeOneTick [[0]]) "pre")
                 eq_refl))
    as (n & Hn & -> & Hshort & Habsent & _).
  assert (n = 2) as ->; [|by vm_compute].
  destruct (decide (n = 1)) as [->|]; [by specialize (Habsent ltac:(lia))|].
  destruct (decide (n = 3)) as [->|]; [|lia].
  by specialize (Hshort 2 ltac:(lia)).
Defined.

(** The inline code of the test of the plugin: the test expects
    [``echo `hello```] in the output. *)
Example codeReplacement_echo (trim : string → string) :
  trim "echo `hello`" = "echo `hello`" →
  RobustCodeBlock.codeReplacement trim "" (mkSelection Examples.codeEcho [[1]])
    Examples.options = Some "``echo `hello```".
Proof.
  intros Htrim. unfold RobustCodeBlock.codeReplacement.
  replace (ReplaceAll _ CRLF LF) with "echo `hello`" by (by vm_compute).
  rewrite Htrim. by vm_compute.
Qed.

(** C7, as stated, fails on [<p><code>```</code></p>]: the runs of one, two
    and three backticks all occur in the text, so no run of at most three
    backticks is absent from it, whatever the rule returns; the rule wraps
    the text in three backticks (when [TrimTrailingSpaces] leaves this text
    as it is). *)
Lemma codeReplacement_three_backticks :
  Nodes (ParentsFiltered (mkSelection Examples.codeThreeTicks [[0]]) "pre") = []
  ∧ ReplaceAll (RobustCodeBlock.collectNodes (mkSelection Examples.codeThreeTicks [[0]])) CRLF LF
    = "```"
  ∧ (∀ out, ¬ Spec.shortestAbsentFence "```" out)
  ∧ (∀ trim : string → string, trim "```" = "```" →
       RobustCodeBlock.codeReplacement trim "" (mkSelection Examples.codeThreeTicks [[0]])
         Examples.options = Some "`````````").
Proof.
  split; [by vm_compute|]. split; [by vm_compute|]. split.
  - intros out (n & Hn & Habsent & _).
    assert (n = 1 ∨ n = 2 ∨ n = 3) as [->|[->| ->]] by lia; by vm_compute in Habsent.
  - intros trim Htrim. unfold RobustCodeBlock.codeReplacement.
    replace (ReplaceAll _ CRLF LF) with "```" by (by vm_compute).
    rewrite Htrim. by vm_compute.
Qed.

(** ** The text of a code block *)

Lemma ToLower_append s t : ToLower (s +:+ t) = ToLower s +:+ ToLower t.
Proof. induction s as [|c s IH]; [done|]. rewrite append_cons. simpl. by rewrite IH. Qed.

Lemma ToLower_split s a b :
  ToLower s = a +:+ b → ∃ s1 s2, s = s1 +:+ s2 ∧ ToLower s1 = a ∧ ToLower s2 = b.
Proof.
  revert s. induction a as [|c a IH]; intros s Hs.
  - by exists "", s.
  - destruct s as [|d s]; [done|]. rewrite append_cons in Hs. simpl in Hs. simplify_eq.
    destruct (IH s) as (s1 & s2 & -> & <- & <-); [done|].
    by exists (String d s1), s2.
Qed.

(** [Contains (ToLower s) word] is the match of [word] in [s] without regard
    to case: a part of [s] is [word] once in lower case. *)
Lemma Contains_ToLower s word :
  Contains (ToLower s) word = true ↔ ∃ u v w, s = u +:+ v +:+ w ∧ ToLower v = word.
Proof.
  rewrite Contains_iff. split.
  - intros (a & b & Hs).
    apply ToLower_split in Hs as (u & vw & -> & _ & Hvw).
    apply ToLower_split in Hvw as (v & w & -> & Hv & _). by exists u, v, w.
  - intros (u & v & w & -> & <-). exists (ToLower u), (ToLower w).
    by rewrite !ToLower_append.
Qed.

Lemma isGutter_iff class :
  RobustCodeBlock.isGutter class = true
  ↔ ∃ u v w, class = u +:+ v +:+ w ∧ (ToLower v = "gutter" ∨ ToLower v = "line-numbers").
Proof.
  unfold RobustCodeBlock.isGutter. rewrite orb_true_iff, !Contains_ToLower. split.
  - intros [(u & v & w & ? & ?)|(u & v & w & ? & ?)]; exists u, v, w; auto.
  - intros (u & v & w & ? & [?|?]); [left|right]; by exists u, v, w.
Qed.

Lemma ToLower_empty s : String.eqb (ToLower s) "" = String.eqb s "".
Proof. by destruct s. Qed.

Lemma existsb_eqb_decide (name : string) (l : list string) :
  existsb (String.eqb name) l = bool_decide (name ∈ l).
Proof.
  induction l as [|x l IH]; cbn [existsb].
  - symmetry. apply bool_decide_eq_false_2, not_elem_of_nil.
  - rewrite IH. destruct (String.eqb_spec name x) as [->|Hne]; cbn [orb].
    + symmetry. apply bool_decide_eq_true_2. left.
    + apply bool_decide_ext. rewrite elem_of_cons. tauto.
Qed.

Lemma isBlockish_decide name :
  RobustCodeBlock.isBlockish name = bool_decide (name ∈ RobustCodeBlock.blockish).
Proof. apply existsb_eqb_decide. Qed.

Lemma collect_children (cs : list Node) (b : string) :
  Forall (λ c, Spec.named c = true → ∀ b, RobustCodeBlock.collect c b = b +:+ Spec.codeText c) cs →
  forallb Spec.named cs = true →
  (fix children (cs : list Node) (b : string) : string :=
     match cs with
     | [] => b
     | child :: cs' => children cs' (RobustCodeBlock.collect child b)
     end) cs b
  = b +:+ Spec.concatenation (map Spec.codeText cs).
Proof.
  intros Hcs. revert b. induction Hcs as [|c cs Hc Hcs IH]; intros b Hnamed; simpl.
  - by rewrite append_nil_r.
  - simpl in Hnamed. apply andb_true_iff in Hnamed as [Hn Hns].
    rewrite Hc, IH by done. by rewrite append_assoc.
Qed.

Lemma collect_codeText n :
  Spec.named n = true → ∀ b, RobustCodeBlock.collect n b = b +:+ Spec.codeText n.
Proof.
  induction n as [t d a cs IH] using Node_ind. intros Hnamed b.
  change (Spec.named (mkNode t d a cs)) with
    ((negb (isElement (mkNode t d a cs)) || negb (String.eqb d "")) && forallb Spec.named cs)
    in Hnamed.
  apply andb_true_iff in Hnamed as [Hd Hcs].
  destruct t; try (by cbn; rewrite ?append_nil_r).
  change (RobustCodeBlock.collect (mkNode ElementNode d a cs) b) with
    (let name := ToLower d in
     if negb (String.eqb name "") &&
        existsb (λ a, String.eqb (Key a) "class" && RobustCodeBlock.isGutter (Val a)) a
     then b
     else
       let b := if String.eqb name "br" then b +:+ LF else b in
       let b :=
         (fix children (cs : list Node) (b : string) : string :=
            match cs with
            | [] => b
            | child :: cs' => children cs' (RobustCodeBlock.collect child b)
            end) cs b in
       if RobustCodeBlock.isBlockish name then b +:+ LF else b).
  change (Spec.codeText (mkNode ElementNode d a cs)) with
    (if Spec.hasGutterClass (mkNode ElementNode d a cs) then EmptyString
     else
       (if String.eqb (ToLower d) "br" then LF else EmptyString)
       +:+ Spec.concatenation (map Spec.codeText cs)
       +:+ (if bool_decide (ToLower d ∈ RobustCodeBlock.blockish) then LF else EmptyString)).
  cbv zeta. rewrite ToLower_empty.
  assert (String.eqb d "" = false) as ->.
  { simpl in Hd. by destruct (String.eqb d ""). }
  change (existsb _ a) with (Spec.hasGutterClass (mkNode ElementNode d a cs)). simpl negb.
  rewrite andb_true_l.
  destruct (Spec.hasGutterClass _); [by rewrite append_nil_r|].
  rewrite collect_children by done. rewrite isBlockish_decide.
  destruct (String.eqb (ToLower d) "br"), (bool_decide (ToLower d ∈ RobustCodeBlock.blockish));
    by rewrite ?append_assoc, ?append_nil_r, ?append_nil_l.
Qed.



(* ====================================================================== *)
(** * Theorems: the rest of the sources *)
(* ====================================================================== *)

(** ** More on the accumulation of Header and Footer *)

Lemma HasSuffix_append_r s t suffix :
  HasSuffix t suffix = true → HasSuffix (s +:+ t) suffix = true.
Proof.
  rewrite !HasSuffix_iff. intros [u ->]. exists (s +:+ u). by rewrite append_assoc.
Qed.

Lemma append_eq_empty s t : String.eqb (s +:+ t) "" = String.eqb s "" && String.eqb t "".
Proof. destruct s; [by destruct t|done]. Qed.

Lemma terminated_fixed s :
  String.eqb s "" || HasSuffix s LF = true → Spec.terminated s = s.
Proof. unfold Spec.terminated. by intros ->. Qed.

Lemma terminated_block s : String.eqb s "" || HasSuffix (Spec.terminated s) LF = true.
Proof.
  unfold Spec.terminated. destruct (String.eqb s "") eqn:He; [done|]. simpl.
  destruct (HasSuffix s LF) eqn:Hs; [done|]. apply HasSuffix_append.
Qed.

Lemma terminated_empty s : String.eqb (Spec.terminated s) "" = String.eqb s "".
Proof.
  unfold Spec.terminated. destruct (String.eqb s "") eqn:He; [done|]. simpl.
  destruct (HasSuffix s LF); [done|]. rewrite append_eq_empty, He. done.
Qed.

Lemma appendBlock_empty_r current : appendBlock current "" = current.
Proof. reflexivity. Qed.

(** X1: [appendBlock] is associative: the Header of a document does not depend
    on how the walk groups the fragments it merges. The empty fragment is
    neutral on the right. *)
Theorem appendBlock_assoc (a b c : string) :
  appendBlock (appendBlock a b) c = appendBlock a (appendBlock b c)
  ∧ appendBlock a "" = a.
Proof.
  split; [|done]. rewrite !appendBlock_joinBlocks. unfold Spec.joinBlocks.
  destruct (String.eqb c "") eqn:Hc.
  { destruct (String.eqb b "") eqn:Hb; by rewrite ?Hb. }
  destruct (String.eqb b "") eqn:Hb.
  - apply String.eqb_eq in Hb as ->.
    rewrite append_eq_empty, !terminated_empty, Hc. simpl.
    change (Spec.terminated "") with "". rewrite append_nil_l.
    f_equal. symmetry. apply terminated_fixed.
    pose proof (terminated_block c) as H. rewrite Hc in H. simpl in H.
    rewrite H. apply orb_true_r.
  - rewrite !append_eq_empty, !terminated_empty, Hb, Hc, !andb_false_r.
    pose proof (terminated_block b) as Hbb. rewrite Hb in Hbb. simpl in Hbb.
    pose proof (terminated_block c) as Hcc. rewrite Hc in Hcc. simpl in Hcc.
    rewrite (terminated_fixed (Spec.terminated a +:+ Spec.terminated b)).
    2:{ rewrite HasSuffix_append_r by done. apply orb_true_r. }
    rewrite (terminated_fixed (Spec.terminated b +:+ Spec.terminated c)).
    2:{ rewrite HasSuffix_append_r by done. apply orb_true_r. }
    by rewrite append_assoc.
Qed.

Lemma appendBlock_block current addition :
  current = "" ∨ HasSuffix current LF = true →
  appendBlock current addition = "" ∨ HasSuffix (appendBlock current addition) LF = true.
Proof.
  intros Hcur. pose proof (appendBlock_ends_with_LF current addition) as H.
  destruct (String.eqb addition "") eqn:Ha.
  - apply String.eqb_eq in Ha as ->. by rewrite appendBlock_empty_r.
  - by right.
Qed.

Section BlockInvariant.
Variable getRuleFuncs : Converter → string → option (list ruleFunc).
Variables (conv : Converter) (opt : Options).

Lemma accumulate_blocks r other : Props.blocks r → Props.blocks (accumulate r other).
Proof. intros [Hh Hf]. split; simpl; by apply appendBlock_block. Qed.

Lemma visitChild_blocks s content st :
  Props.blocks (fst st) → Props.blocks (fst (visitChild getRuleFuncs conv opt s content st)).
Proof.
  destruct st as [result builder]. simpl. intros Hb. unfold visitChild.
  destruct (bool_decide _); [done|].
  destruct (applyRules _ _ _ _ _ _) as [ruleResult useOriginal].
  destruct useOriginal; simpl; by do 2 apply accumulate_blocks.
Qed.

Lemma walk_blocks (f : Selection → AdvancedResult) (l : list Selection) st :
  Props.blocks (fst st) →
  Props.blocks (fst (fold_left (λ st s, visitChild getRuleFuncs conv opt s (f s) st) l st)).
Proof.
  revert st. induction l as [|s l IH]; intros st Hb; [done|].
  simpl. apply IH. by apply visitChild_blocks.
Qed.
End BlockInvariant.

(** X2: The Header and the Footer of a walk, and those of a conversion, are
    empty or end with a line feed, whatever the rules return. *)
Theorem walk_header_footer_blocks
    (getRuleFuncs : Converter → string → option (list ruleFunc))
    (conv : Converter) (selec : Selection) (root : option Selection) (opt : Options) :
  Props.blocks (selecToMD getRuleFuncs conv selec opt)
  ∧ Props.blocks (applyRulesToSelection getRuleFuncs conv root opt).
Proof.
  assert (∀ s, Props.blocks (selecToMD getRuleFuncs conv s opt)) as Hwalk.
  { intros s. unfold selecToMD.
    pose proof (walk_blocks getRuleFuncs conv opt (selecToMDChild getRuleFuncs conv opt)
                  (each (Contents s)) (emptyResult, EmptyString)) as Hb.
    destruct (fold_left _ _ _) as [result builder]. simpl in *.
    apply Hb. split; by left. }
  split; [apply Hwalk|].
  unfold applyRulesToSelection. destruct root as [s|]; [|split; by left].
  destruct (length (Nodes s) =? 0); [split; by left|].
  destruct (Hwalk s) as [Hsh Hsf].
  destruct (applyRules _ _ _ _ _ _) as [ruleResult useOriginal].
  destruct useOriginal; split; simpl; by apply appendBlock_block.
Qed.

(** ** More on the precedence of rules *)

Lemma applyRulesFrom_app rs more k markdown selec opt :
  k ≤ length rs →
  applyRulesFrom (rs ++ more) k markdown selec opt = applyRulesFrom rs k markdown selec opt.
Proof.
  induction k as [|i IH]; intros Hk; [done|].
  cbn [applyRulesFrom]. rewrite lookup_app_l by lia. rewrite IH by lia. done.
Qed.

(** X3: A function registered after the others decides alone when it does not
    skip, and when it skips the result is the one of the functions
    registered before it. *)
Theorem applyRules_last_registered
    (getRuleFuncs : Converter → string → option (list ruleFunc))
    (conv : Converter) (nodeName markdown : string) (selec : Selection) (opt : Options)
    (rs : list ruleFunc) (rule : ruleFunc) :
  getRuleFuncs conv nodeName = Some (rs ++ [rule]) →
  applyRules getRuleFuncs conv nodeName markdown selec opt =
    if snd (rule markdown selec opt)
    then applyRulesFrom rs (length rs) markdown selec opt
    else (fst (rule markdown selec opt), false).
Proof.
  intros Hrs. unfold applyRules. rewrite Hrs, length_app. simpl.
  rewrite Nat.add_1_r. cbn [applyRulesFrom].
  rewrite lookup_app_r by lia. rewrite Nat.sub_diag. simpl.
  destruct (rule markdown selec opt) as [res skip]. simpl.
  destruct skip; simpl; [|done]. by apply applyRulesFrom_app.
Qed.

Lemma applyRules_last_registered_witness :
  applyRules resolve Examples.threeRules "p" "x"
    (Examples.rootOf Examples.paragraphs) Examples.options
  = applyRulesFrom [Examples.bracket; Examples.star] 2 "x"
      (Examples.rootOf Examples.paragraphs) Examples.options.
Proof.
  exact (applyRules_last_registered resolve Examples.threeRules "p" "x"
           (Examples.rootOf Examples.paragraphs) Examples.options
           [Examples.bracket; Examples.star] Examples.skipping eq_refl).
Defined.

Lemma applyRulesFrom_original rs k markdown selec opt :
  snd (applyRulesFrom rs k markdown selec opt) = true →
  fst (applyRulesFrom rs k markdown selec opt) = mkResult "" markdown "".
Proof.
  induction k as [|i IH]; [done|]. cbn [applyRulesFrom].
  destruct (rs !! i) as [rule|]; [|done].
  destruct (rule markdown selec opt) as [res skip]. by destruct skip.
Qed.

(** X4: When [applyRules] tells the walker to use the original, the result it
    returns beside is the content as it was given, with an empty Header and
    an empty Footer: what a skipping function returned is dropped. *)
Theorem applyRules_use_original
    (getRuleFuncs : Converter → string → option (list ruleFunc))
    (conv : Converter) (nodeName markdown : string) (selec : Selection) (opt : Options) :
  snd (applyRules getRuleFuncs conv nodeName markdown selec opt) = true →
  fst (applyRules getRuleFuncs conv nodeName markdown selec opt) = mkResult "" markdown "".
Proof.
  unfold applyRules. destruct (getRuleFuncs conv nodeName) as [rs|]; [|done].
  apply applyRulesFrom_original.
Qed.

Lemma applyRules_use_original_witness :
  fst (applyRules Cases.allSkip Examples.threeRules "p" "x"
         (Examples.rootOf Examples.paragraphs) Examples.options)
  = mkResult "" "x" "".
Proof.
  exact (applyRules_use_original Cases.allSkip Examples.threeRules "p" "x"
           (Examples.rootOf Examples.paragraphs) Examples.options eq_refl).
Defined.

(** ** A walk in which every function skips *)

Section AllSkip.
Variable getRuleFuncs : Converter → string → option (list ruleFunc).
Variables (conv : Converter) (opt : Options).
Hypothesis all_skip :
  ∀ tag, ∃ rs, getRuleFuncs conv tag = Some rs
               ∧ ∀ rule markdown s, rule ∈ rs → snd (rule markdown s opt) = true.

Lemma applyRulesFrom_all_skip rs k markdown selec :
  (∀ rule markdown s, rule ∈ rs → snd (rule markdown s opt) = true) →
  applyRulesFrom rs k markdown selec opt = (mkResult "" markdown "", true).
Proof.
  intros Hskip. induction k as [|i IH]; [done|]. cbn [applyRulesFrom].
  destruct (rs !! i) as [rule|] eqn:Hrule; [|done].
  pose proof (Hskip rule markdown selec (list_elem_of_lookup_2 _ _ _ Hrule)) as Hs.
  destruct (rule markdown selec opt) as [res skip]. simpl in Hs. by rewrite Hs.
Qed.

Lemma applyRules_all_skip nodeName markdown selec :
  applyRules getRuleFuncs conv nodeName markdown selec opt = (mkResult "" markdown "", true).
Proof using all_skip.
  unfold applyRules. destruct (all_skip nodeName) as (rs & -> & Hskip).
  by apply applyRulesFrom_all_skip.
Qed.

Lemma visitChild_all_skip s :
  visitChild getRuleFuncs conv opt s emptyResult (emptyResult, EmptyString)
  = (emptyResult, EmptyString).
Proof using all_skip.
  unfold visitChild. destruct (bool_decide _); [done|].
  by rewrite applyRules_all_skip.
Qed.

Lemma selecToMDNode_all_skip root n p :
  selecToMDNode getRuleFuncs conv opt root n p = emptyResult.
Proof using all_skip.
  revert p. induction n as [t d a cs IH] using Node_ind. intros p.
  change (selecToMDNode getRuleFuncs conv opt root (mkNode t d a cs) p) with
    (finishWalk
       ((fix eachChild (cs : list Node) (i : nat) (st : walkState) : walkState :=
           match cs with
           | [] => st
           | c :: cs' =>
               eachChild cs' (S i)
                 (visitChild getRuleFuncs conv opt (mkSelection root [p ++ [i]])
                    (selecToMDNode getRuleFuncs conv opt root c (p ++ [i])) st)
           end) cs 0 (emptyResult, EmptyString))).
  generalize 0 as i.
  induction IH as [|c cs Hc _ IHcs]; intros i; [done|].
  rewrite Hc, visitChild_all_skip. apply IHcs.
Qed.

Lemma selecToMD_all_skip selec :
  selecToMD getRuleFuncs conv selec opt = emptyResult.
Proof using all_skip.
  unfold selecToMD.
  induction (each (Contents selec)) as [|s l IH]; [done|]. cbn [fold_left].
  assert (selecToMDChild getRuleFuncs conv opt s = emptyResult) as ->; [|by rewrite visitChild_all_skip].
  unfold selecToMDChild. destruct (Nodes s) as [|c [|??]]; try done.
  destruct (nodeAt (document s) c); [apply selecToMDNode_all_skip|done].
Qed.
End AllSkip.

(** X5: The walker writes no text of its own: when every function registered
    for every tag skips, the walk and the conversion of any document give
    the empty result, and what the skipping functions returned is lost. *)
Theorem walk_all_skip
    (getRuleFuncs : Converter → string → option (list ruleFunc))
    (conv : Converter) (opt : Options) (selec : Selection) (root : option Selection) :
  (∀ tag, ∃ rs, getRuleFuncs conv tag = Some rs
                ∧ ∀ rule markdown s, rule ∈ rs → snd (rule markdown s opt) = true) →
  selecToMD getRuleFuncs conv selec opt = mkResult "" "" ""
  ∧ applyRulesToSelection getRuleFuncs conv root opt = mkResult "" "" "".
Proof.
  intros Hskip. split; [by apply selecToMD_all_skip|].
  unfold applyRulesToSelection. destruct root as [s|]; [|done].
  destruct (length (Nodes s) =? 0); [done|].
  rewrite selecToMD_all_skip by done.
  by rewrite applyRules_all_skip.
Qed.

Lemma walk_all_skip_witness :
  applyRulesToSelection Cases.allSkip Examples.threeRules
    (Some (Examples.rootOf Examples.paragraphs)) Examples.options = mkResult "" "" "".
Proof.
  refine (proj2 (walk_all_skip Cases.allSkip Examples.threeRules Examples.options
                   (Examples.rootOf Examples.paragraphs)
                   (Some (Examples.rootOf Examples.paragraphs)) _)).
  intros tag. exists [Cases.noisySkip]. split; [reflexivity|].
  intros rule markdown s Hrule. apply list_elem_of_singleton in Hrule. by subst.
Defined.

(** ** A root that resolves to no list *)



(** ** Selections of one node *)

Lemma isElementAt_node root p :
  isElementAt root p = true → ∃ n, nodeAt root p = Some n ∧ isElement n = true.
Proof.
  unfold isElementAt, typeAt. intros H%bool_decide_eq_true.
  destruct (nodeAt root p) as [n|]; [|done]. exists n. split; [done|].
  unfold isElement. apply bool_decide_eq_true. by simplify_eq/=.
Qed.

Lemma matchesTag_element root tag p : matchesTag root tag p = true → isElementAt root p = true.
Proof.
  unfold matchesTag, isElementAt, typeAt.
  destruct (nodeAt root p) as [n|]; [|done]. intros [He _]%andb_true_iff.
  apply bool_decide_eq_true in He. apply bool_decide_eq_true. simpl. by rewrite He.
Qed.

Lemma matchesTag_not_element root tag p : isElementAt root p = false → matchesTag root tag p = false.
Proof.
  intros Hp. destruct (matchesTag root tag p) eqn:Hm; [|done].
  apply matchesTag_element in Hm. congruence.
Qed.

Lemma NodeName_single root tag p :
  isElementAt root p = true →
  String.eqb (NodeName (mkSelection root [p])) tag = matchesTag root tag p.
Proof.
  intros (n & Hn & He)%isElementAt_node.
  unfold NodeName, Get0, matchesTag. simpl. rewrite Hn, He.
  unfold nodeName. apply bool_decide_eq_true in He. by rewrite He.
Qed.

Lemma Is_single root tag p : Is (mkSelection root [p]) tag = matchesTag root tag p.
Proof. unfold Is. simpl. apply orb_false_r. Qed.

Lemma Parent_single root p :
  Nodes (Parent (mkSelection root [p]))
  = match parentPath p with
    | Some pp => if isElementAt root pp then [pp] else []
    | None => []
    end.
Proof.
  simpl. apply mapNodes_single.
  destruct (parentPath p) as [pp|]; [|constructor].
  destruct (isElementAt root pp); [apply NoDup_singleton|constructor].
Qed.

Lemma Siblings_single root p :
  Nodes (Siblings (mkSelection root [p]))
  = match parentPath p with
    | Some pp => filter (λ c, c ≠ p) (elementChildPaths root pp)
    | None => []
    end.
Proof.
  simpl. apply mapNodes_single.
  destruct (parentPath p) as [pp|]; [|constructor].
  apply NoDup_filter, elementChildPaths_NoDup.
Qed.

Lemma filter_nil_forallb (p : Path) (l : list Path) :
  Nat.eqb (length (filter (λ c, c ≠ p) l)) 0 = forallb (λ c, bool_decide (c = p)) l.
Proof.
  induction l as [|c l IH]; [done|]. rewrite filter_cons. simpl.
  destruct (decide (c ≠ p)) as [Hne|Heq].
  - by rewrite bool_decide_eq_false_2.
  - apply dec_stable in Heq. by rewrite bool_decide_eq_true_2.
Qed.

Lemma Length_Eq_0 (s : Selection) :
  Nat.eqb (Length (Eq s 0)) 0 = Nat.eqb (length (Nodes s)) 0.
Proof. unfold Length, Eq. by destruct (Nodes s). Qed.

(** [isFirstTbody] on the selection of one node: the node is a [<tbody>]
    and no other element has the same parent. *)
Lemma isFirstTbody_single root p :
  Table.isFirstTbody (mkSelection root [p])
  = matchesTag root "tbody" p && Props.hasNoElementSibling root p.
Proof.
  unfold Table.isFirstTbody. rewrite Is_single, Length_Eq_0, Siblings_single.
  unfold Props.hasNoElementSibling.
  destruct (parentPath p) as [pp|].
  - rewrite filter_nil_forallb. by destruct (_ && _).
  - simpl. by destruct (matchesTag root "tbody" p).
Qed.

Lemma everyTH_forallb root (cells : list Path) :
  Forall (λ c, isElementAt root c = true) cells →
  forallb (λ i, String.eqb (NodeName (Eq (mkSelection root cells) i)) "th")
    (seq 0 (length cells))
  = forallb (matchesTag root "th") cells.
Proof.
  intros Hcells.
  assert (∀ pre, forallb (λ i, String.eqb (NodeName (Eq (mkSelection root (pre ++ cells)) i)) "th")
                   (seq (length pre) (length cells))
                 = forallb (matchesTag root "th") cells) as Hgen.
  { induction Hcells as [|c cells Hc _ IH]; intros pre; [done|]. simpl.
    unfold Eq at 1. simpl.
    rewrite lookup_app_r by lia. rewrite Nat.sub_diag. simpl.
    rewrite NodeName_single by done. f_equal.
    specialize (IH (pre ++ [c])). rewrite <-app_assoc, length_app in IH. simpl in IH.
    by rewrite Nat.add_1_r in IH. }
  apply (Hgen []).
Qed.

Lemma elementChildPaths_elements root p :
  Forall (λ c, isElementAt root c = true) (elementChildPaths root p).
Proof. apply Forall_forall. by intros c [Hc _]%list_elem_of_filter. Qed.

(** X7: What [isHeadingRow] answers for one row: the parent of the row is a
    [<thead>]; or every element child of the row is a [<th>], the parent is
    a [<table>] or a [<tbody>] that has no element sibling, and the row is
    the first element child of its parent. *)
Theorem isHeadingRow_one_row (root : Node) (row : Path) :
  Table.isHeadingRow (mkSelection root [row])
  = Spec.parentIs root "thead" row
    || (forallb (matchesTag root "th") (elementChildPaths root row)
        && (Spec.parentIs root "table" row
            || from_option
                 (λ body, matchesTag root "tbody" body && Props.hasNoElementSibling root body)
                 false (parentPath row))
        && Spec.isFirstElementChild root row).
Proof.
  unfold Table.isHeadingRow. cbv zeta.
  assert (Nodes (Children (mkSelection root [row])) = elementChildPaths root row) as Hch
    by apply Children_single.
  assert (Children (mkSelection root [row]) = mkSelection root (elementChildPaths root row)) as ->.
  { by rewrite <-Hch. }
  unfold Length at 1. cbn [Nodes].
  rewrite everyTH_forallb by apply elementChildPaths_elements.
  pose proof (Parent_single root row) as Hparent.
  assert (Parent (mkSelection root [row])
          = mkSelection root (Nodes (Parent (mkSelection root [row])))) as -> by done.
  rewrite Hparent. unfold Spec.parentIs, Spec.isFirstElementChild.
  destruct (parentPath row) as [pp|]; simpl.
  2:{ by destruct (forallb _ _). }
  destruct (isElementAt root pp) eqn:Hpp.
  - rewrite NodeName_single by done.
    destruct (matchesTag root "thead" pp); [done|]. simpl.
    rewrite Is_single, isFirstTbody_single.
    destruct (forallb _ _); [|done]. simpl.
    destruct (matchesTag root "table" pp || _); [|done]. simpl.
    destruct (Table.firstElementChild root pp) as [child|].
    + apply bool_decide_ext. split; [by intros ->|by intros [= ->]].
    + symmetry. by apply bool_decide_eq_false_2.
  - rewrite !(matchesTag_not_element _ _ _ Hpp). simpl.
    unfold Table.isFirstTbody, Is. simpl. by destruct (forallb _ _).
Qed.

(** ** More on the table rule *)

(** X8: When a [<thead>] or a [<th>] element is somewhere below the table, in
    any row and at any depth, the table rule adds no header: the content is
    only set between two blank lines. *)
Theorem tableReplacement_keeps_header
    (content : string) (table : Selection) (opt : Options)
    (p r : Path) (n : Node) :
  p ∈ Nodes table → r ≠ [] → nodeAt (document table) (p ++ r) = Some n →
  isElement n = true → Data n = "thead" ∨ Data n = "th" →
  Table.tableReplacement content table opt = Some (LF +:+ LF +:+ content +:+ LF +:+ LF).
Proof.
  intros Hp Hr Hn He Hd. unfold Table.tableReplacement, Length.
  assert (Nat.eqb (length (Nodes (Find table "thead"))) 0
          && Nat.eqb (length (Nodes (Find table "th"))) 0 = false) as ->; [|done].
  apply andb_false_iff. destruct Hd as [Hd|Hd]; [left|right].
  - assert (p ++ r ∈ Nodes (Find table "thead")) as Hin
      by (apply elem_of_Find; by exists p, r, n).
    destruct (Nodes (Find table "thead")); [by apply elem_of_nil in Hin|done].
  - assert (p ++ r ∈ Nodes (Find table "th")) as Hin
      by (apply elem_of_Find; by exists p, r, n).
    destruct (Nodes (Find table "th")); [by apply elem_of_nil in Hin|done].
Qed.

Lemma tableReplacement_keeps_header_witness :
  Table.tableReplacement "X" (Examples.rootOf Examples.oneBody) Examples.options
  = Some (LF +:+ LF +:+ "X" +:+ LF +:+ LF).
Proof.
  exact (tableReplacement_keeps_header "X" (Examples.rootOf Examples.oneBody)
           Examples.options [] [1; 1; 0] (Examples.elem "th" [] [Examples.text "A"])
           ltac:(by left) ltac:(done) eq_refl eq_refl (or_intror eq_refl)).
Defined.

Lemma maxCount_max_list (rows : Selection) :
  Table.maxCount rows
  = max_list (map (λ row, length (elementChildPaths (document rows) row)) (Nodes rows)).
Proof.
  unfold Table.maxCount, each.
  transitivity (0 `max` max_list (map (λ row, length (elementChildPaths (document rows) row))
                                   (Nodes rows))); [|done].
  generalize 0 as a.
  induction (Nodes rows) as [|row l IH]; intros a; simpl; [lia|].
  rewrite IH. unfold Length, single. rewrite Children_single. simpl.
  destruct (Nat.ltb_spec a (length (elementChildPaths (document rows) row))); lia.
Qed.

Lemma max_list_elem_of (l : list nat) : l ≠ [] → max_list l ∈ l.
Proof.
  induction l as [|x l IH]; [done|]. intros _. simpl.
  destruct l as [|y l].
  - simpl. rewrite Nat.max_0_r. by left.
  - destruct (Nat.max_spec x (max_list (y :: l))) as [[_ ->]|[_ ->]].
    + right. by apply IH.
    + by left.
Qed.

(** X9: No row is wider than the header the table rule makes: the count of the
    loop over the rows is at least the number of element children of each
    row, it is the number of one of the rows when there is a row, and it is
    zero when there is none. *)
Theorem maxCount_bounds (rows : Selection) :
  (∀ row, row ∈ Nodes rows →
     length (elementChildPaths (document rows) row) ≤ Table.maxCount rows)
  ∧ (Nodes rows = [] → Table.maxCount rows = 0)
  ∧ (Nodes rows ≠ [] →
     ∃ row, row ∈ Nodes rows
            ∧ length (elementChildPaths (document rows) row) = Table.maxCount rows).
Proof.
  rewrite maxCount_max_list. split; [|split].
  - intros row Hrow. apply max_list_elem_of_le.
    apply (list_elem_of_fmap_2 (λ row, length (elementChildPaths (document rows) row))).
    done.
  - by intros ->.
  - intros Hrows.
    pose proof (max_list_elem_of
                  (map (λ row, length (elementChildPaths (document rows) row)) (Nodes rows)))
      as Hmax.
    apply list_elem_of_fmap in Hmax as (row & Hsize & Hrow).
    + by exists row.
    + by destruct (Nodes rows).
Qed.

(** ** The cells of a table *)

Import GoText.

Lemma prefix_char c d s : String.prefix (String c "") (String d s) = bool_decide (c = d).
Proof.
  simpl. destruct (ascii_dec c d) as [->|Hne].
  - rewrite bool_decide_eq_true_2 by done. by destruct s.
  - by rewrite bool_decide_eq_false_2.
Qed.

Lemma Contains_char_cons c d s :
  Contains (String d s) (String c "") = bool_decide (c = d) || Contains s (String c "").
Proof. by rewrite Contains_cons, prefix_char. Qed.

Lemma Contains_char_append c s t :
  Contains (s +:+ t) (String c "") = Contains s (String c "") || Contains t (String c "").
Proof.
  induction s as [|d s IH]; [done|].
  rewrite append_cons, !Contains_char_cons, IH. by rewrite orb_assoc.
Qed.

Lemma prefix_CRLF c s : String.prefix CRLF (String c s) = true → String.prefix LF s = true.
Proof.
  rewrite !prefix_iff. intros [u Hu]. exists u.
  unfold CRLF, CR in Hu. rewrite !append_cons, append_nil_l in Hu.
  injection Hu as _ Hs. exact Hs.
Qed.

Lemma Contains_LF_append s t : Contains (s +:+ t) LF = Contains s LF || Contains t LF.
Proof. apply Contains_char_append. Qed.

Lemma Contains_LF_cons d s :
  Contains (String d s) LF = String.prefix LF (String d s) || Contains s LF.
Proof. apply Contains_cons. Qed.

(** No line feed is left after the replacement of the line ends. *)
Lemma replaceNewlinesFrom_no_LF s :
  ∀ inRun,
    Contains (replaceNewlinesFrom 0 inRun s) LF = false
    ∧ (String.prefix LF s = true → Contains (replaceNewlinesFrom 1 inRun s) LF = false).
Proof.
  induction s as [|c s IH]; intros inRun; [done|]. split.
  - cbn [replaceNewlinesFrom].
    destruct (String.prefix LF (String c s)) eqn:HLF.
    { rewrite Contains_LF_append, (proj1 (IH true)). by destruct inRun. }
    destruct (String.prefix CRLF (String c s)) eqn:HCRLF.
    { rewrite Contains_LF_append, (proj2 (IH true)) by (by eapply prefix_CRLF).
      by destruct inRun. }
    rewrite Contains_LF_cons, (proj1 (IH false)).
    assert (String.prefix LF (String c (replaceNewlinesFrom 0 false s))
            = String.prefix LF (String c s)) as ->; [|by rewrite HLF].
    unfold LF. by rewrite !prefix_char.
  - intros _. cbn [replaceNewlinesFrom]. apply IH.
Qed.



(** ** The rows of a table *)

Lemma border_cases (s : Selection) :
  TableRules.border s = ":--" ∨ TableRules.border s = "--:"
  ∨ TableRules.border s = ":-:" ∨ TableRules.border s = "---".
Proof.
  unfold TableRules.border. destruct (Goquery.Attr s "align") as [align|]; [|auto].
  destruct (String.eqb align "left"); [auto|].
  destruct (String.eqb align "right"); [auto|].
  destruct (String.eqb align "center"); auto.
Qed.

Lemma border_plain (s : Selection) :
  TrimSpace (TableRules.border s) = TableRules.border s
  ∧ ReplaceNewlines (TableRules.border s) = TableRules.border s
  ∧ Spec.pipes (TableRules.border s) = 0.
Proof. destruct (border_cases s) as [->|[->|[->| ->]]]; by vm_compute. Qed.

Lemma find_head_filter {A} (f : A → bool) (l : list A) :
  find f l = head (filter (λ x, f x = true) l).
Proof.
  induction l as [|x l IH]; [done|]. rewrite filter_cons. cbn [find].
  destruct (decide (f x = true)) as [Hx|Hx].
  - by rewrite Hx.
  - apply not_true_is_false in Hx. by rewrite Hx.
Qed.

Lemma firstElementChild_head root p :
  Table.firstElementChild root p = head (elementChildPaths root p).
Proof. apply find_head_filter. Qed.

Lemma parentPath_child (p : Path) (i : nat) : parentPath (p ++ [i]) = Some p.
Proof.
  unfold parentPath. destruct (p ++ [i]) eqn:Hp.
  - by destruct p.
  - by rewrite <-Hp, removelast_last.
Qed.

Lemma elementChildPaths_child root p c :
  c ∈ elementChildPaths root p → parentPath c = Some p.
Proof.
  intros [_ Hc]%list_elem_of_filter. unfold childPaths in Hc.
  destruct (nodeAt root p); [|by apply elem_of_nil in Hc].
  apply list_elem_of_fmap in Hc as (i & -> & _). apply parentPath_child.
Qed.

(** The divider of one cell of a row. *)
Lemma getCellContent_border root row c :
  isElementAt root row = true →
  c ∈ elementChildPaths root row →
  TableRules.getCellContent (TableRules.border (mkSelection root [c])) (mkSelection root [c])
  = (if bool_decide (head (elementChildPaths root row) = Some c) then "| " else " ")
    +:+ TableRules.border (mkSelection root [c]) +:+ " |".
Proof.
  intros Hrow Hc. unfold TableRules.getCellContent. cbv zeta.
  destruct (border_plain (mkSelection root [c])) as (-> & Hbr & _).
  assert ((if Nat.eqb (Length (Find (mkSelection root [c]) "table")) 0
           then ReplaceNewlines (TableRules.border (mkSelection root [c]))
           else TableRules.border (mkSelection root [c]))
          = TableRules.border (mkSelection root [c])) as ->.
  { rewrite Hbr. by destruct (Nat.eqb _ _). }
  rewrite Parent_single, (elementChildPaths_child _ _ _ Hc), Hrow.
  cbn [Nodes document]. rewrite firstElementChild_head.
  destruct (head (elementChildPaths root row)) as [child|] eqn:Hhead.
  - assert (bool_decide (child = c) = bool_decide (Some child = Some c)) as ->; [|done].
    apply bool_decide_ext. split; [by intros ->|by intros [= ->]].
  - by rewrite bool_decide_eq_false_2.
Qed.

Lemma fold_left_append {A} (f : A → string) (l : list A) (a : string) :
  fold_left (λ acc x, acc +:+ f x) l a = a +:+ Spec.concatenation (map f l).
Proof.
  revert a. induction l as [|x l IH]; intros a; simpl.
  - by rewrite append_nil_r.
  - by rewrite IH, append_assoc.
Qed.

Lemma borderCells_dividerRow root row :
  isElementAt root row = true →
  fold_left
    (λ borderCells s, borderCells +:+ TableRules.getCellContent (TableRules.border s) s)
    (each (Children (mkSelection root [row]))) EmptyString
  = Props.dividerRow root (elementChildPaths root row).
Proof.
  intros Hrow. unfold each, single. rewrite Children_single. cbn [document Children].
  rewrite fold_left_append, append_nil_l, map_map.
  pose proof (elementChildPaths_NoDup root row) as Hnd.
  assert (∀ c, c ∈ elementChildPaths root row →
            TableRules.getCellContent
              (TableRules.border (mkSelection root [c])) (mkSelection root [c])
            = (if bool_decide (head (elementChildPaths root row) = Some c) then "| " else " ")
              +:+ TableRules.border (mkSelection root [c]) +:+ " |") as Hcell.
  { intros c Hc. by apply getCellContent_border. }
  destruct (elementChildPaths root row) as [|c0 rest]; [done|].
  apply NoDup_cons in Hnd as [Hc0 _].
  cbn [map Spec.concatenation fold_right Props.dividerRow].
  rewrite Hcell by left. rewrite bool_decide_eq_true_2 by done.
  rewrite !append_assoc. do 3 f_equal.
  apply (f_equal Spec.concatenation). apply map_ext_in. intros c Hc%list_elem_of_In.
  rewrite Hcell by (by right). rewrite bool_decide_eq_false_2; [done|].
  simpl. intros [= ->]. done.
Qed.

Lemma pipes_cells root (cells : list Path) :
  Spec.pipes (Spec.concatenation
                (map (λ c, " " +:+ TableRules.border (mkSelection root [c]) +:+ " |") cells))
  = length cells.
Proof.
  induction cells as [|c cells IH]; [done|].
  cbn [map Spec.concatenation fold_right length].
  fold (Spec.concatenation
          (map (λ c, " " +:+ TableRules.border (mkSelection root [c]) +:+ " |") cells)).
  rewrite !pipes_append, IH.
  destruct (border_plain (mkSelection root [c])) as (_ & _ & ->). done.
Qed.

(** X11: The rule for [<tr>] on one row: a line feed before the content, and for
    a heading row with cells a second line, the divider, which has one cell
    for each element child of the row, with the token of its [align]
    attribute between a space and a pipe; the first cell opens the line
    with a pipe. A row that is not a heading row gets no divider. *)
Theorem rowReplacement_divider
    (content : string) (root : Node) (row : Path) (opt : Options) :
  isElementAt root row = true →
  TableRules.rowReplacement content (mkSelection root [row]) opt
  = Some (LF +:+ content
          +:+ (if Table.isHeadingRow (mkSelection root [row])
                  && negb (Nat.eqb (length (elementChildPaths root row)) 0)
               then LF +:+ Props.dividerRow root (elementChildPaths root row)
               else EmptyString))
  ∧ Spec.columns (Props.dividerRow root (elementChildPaths root row))
    = length (elementChildPaths root row).
Proof.
  intros Hrow. split.
  - unfold TableRules.rowReplacement. cbv zeta.
    destruct (Table.isHeadingRow (mkSelection root [row])).
    + rewrite borderCells_dividerRow by done.
      destruct (elementChildPaths root row) as [|c0 rest]; simpl.
      * by rewrite append_nil_r.
      * by rewrite append_assoc.
    + simpl. by rewrite append_nil_r.
  - destruct (elementChildPaths root row) as [|c0 rest]; [done|].
    unfold Spec.columns, Props.dividerRow.
    rewrite !pipes_append, pipes_cells.
    destruct (border_plain (mkSelection root [c0])) as (_ & _ & ->). simpl. lia.
Qed.

Lemma rowReplacement_divider_witness :
  TableRules.rowReplacement "| A | B |  |" (mkSelection Cases.headed [[1; 0]]) Examples.options
  = Some (LF +:+ "| A | B |  |" +:+ LF +:+ "| :-- | :-: | --- |").
Proof.
  destruct (rowReplacement_divider "| A | B |  |" Cases.headed [1; 0] Examples.options eq_refl)
    as [-> _].
  by vm_compute.
Defined.

(** ** The cells of the TableCompat plugin *)

Lemma find_none {A} (f : A → bool) (l : list A) :
  (∀ x, x ∈ l → f x = false) → find f l = None.
Proof.
  induction l as [|x l IH]; intros Hl; [done|]. simpl.
  rewrite (Hl x) by left. apply IH. intros y Hy. apply Hl. by right.
Qed.

Lemma nextElementSibling_none root p :
  (∀ j n, List.last p 0 < j → nodeAt root (removelast p ++ [j]) = Some n →
          isElement n = false) →
  Goquery.nextElementSibling root p = [].
Proof.
  intros Hlast. unfold Goquery.nextElementSibling.
  destruct (parentPath p) as [pp|] eqn:Hpp; [|done].
  assert (pp = removelast p) as -> by (destruct p; by simplify_eq/=).
  rewrite find_none; [done|].
  intros c [Hlt Hc]%list_elem_of_filter. unfold childPaths in Hc.
  destruct (nodeAt root (removelast p)) as [parent|] eqn:Hparent; [|by apply elem_of_nil in Hc].
  apply list_elem_of_fmap in Hc as (j & -> & Hj). rewrite last_last in Hlt.
  unfold isElementAt, typeAt. apply bool_decide_eq_false_2.
  destruct (nodeAt root (removelast p ++ [j])) as [n|] eqn:Hn; [|done].
  pose proof (Hlast j n Hlt Hn) as He. unfold isElement in He.
  apply bool_decide_eq_false in He. simpl. by intros [= ?].
Qed.

(** X12: The cell rule of TableCompat never puts the separator after a cell that
    no element follows in its row: the last cell is the trimmed content and
    nothing else. *)
Theorem tableCompat_last_cell
    (content : string) (root : Node) (p : Path) (opt : Options) :
  (∀ j n, List.last p 0 < j → nodeAt root (removelast p ++ [j]) = Some n →
          isElement n = false) →
  TableCompat.cellReplacement content (mkSelection root [p]) opt = Some (TrimSpace content).
Proof.
  intros Hnext%nextElementSibling_none. unfold TableCompat.cellReplacement. cbv zeta.
  destruct (String.eqb (TrimSpace content) ""); [done|].
  assert (Nodes (Goquery.Next (mkSelection root [p])) = []) as Hnodes.
  { simpl. rewrite mapNodes_single; [done|]. rewrite Hnext. constructor. }
  unfold Is. by rewrite Hnodes.
Qed.

Lemma tableCompat_last_cell_witness :
  TableCompat.cellReplacement " x " (mkSelection Cases.headed [[1; 0; 3]]) Examples.options
  = Some "x"
  ∧ TableCompat.cellReplacement " x " (mkSelection Cases.headed [[1; 0; 1]]) Examples.options
    = Some ("x" +:+ TableCompat.separator).
Proof.
  split; [|by vm_compute].
  rewrite (tableCompat_last_cell " x " Cases.headed [1; 0; 3] Examples.options);
    [by vm_compute|].
  intros j n Hj Hn. simpl in Hj, Hn.
  do 4 (destruct j as [|j]; [lia|]). by destruct j.
Defined.

(** ** More on the text of a code block *)

Lemma collect_children_appends (cs : list Node) :
  Forall (λ c, ∀ b, RobustCodeBlock.collect c b = b +:+ RobustCodeBlock.collect c "") cs →
  ∀ b,
    (fix children (cs : list Node) (b : string) : string :=
       match cs with
       | [] => b
       | child :: cs' => children cs' (RobustCodeBlock.collect child b)
       end) cs b
    = b +:+ (fix children (cs : list Node) (b : string) : string :=
               match cs with
               | [] => b
               | child :: cs' => children cs' (RobustCodeBlock.collect child b)
               end) cs "".
Proof.
  intros Hcs. induction Hcs as [|c cs Hc _ IH]; intros b.
  - by rewrite append_nil_r.
  - rewrite IH. rewrite (IH (RobustCodeBlock.collect c "")). rewrite Hc.
    by rewrite append_assoc.
Qed.

(** X13: [collect] only appends: what the builder held before the call is a
    prefix of what it holds after, and what is added does not depend on
    it. *)
Theorem collect_appends (n : Node) (b : string) :
  RobustCodeBlock.collect n b = b +:+ RobustCodeBlock.collect n "".
Proof.
  revert b. induction n as [t d a cs IH] using Node_ind. intros b.
  destruct t; try (by cbn; rewrite ?append_nil_r).
  assert (∀ b, RobustCodeBlock.collect (mkNode ElementNode d a cs) b =
    (let name := ToLower d in
     if negb (String.eqb name "") &&
        existsb (λ a, String.eqb (Key a) "class" && RobustCodeBlock.isGutter (Val a)) a
     then b
     else
       let b := if String.eqb name "br" then b +:+ LF else b in
       let b :=
         (fix children (cs : list Node) (b : string) : string :=
            match cs with
            | [] => b
            | child :: cs' => children cs' (RobustCodeBlock.collect child b)
            end) cs b in
       if RobustCodeBlock.isBlockish name then b +:+ LF else b)) as Hunfold by done.
  rewrite !Hunfold. cbv zeta.
  destruct (negb _ && existsb _ a); [by rewrite append_nil_r|].
  rewrite (collect_children_appends cs IH).
  rewrite (collect_children_appends cs IH (if String.eqb (ToLower d) "br" then "" +:+ LF else "")).
  destruct (String.eqb (ToLower d) "br"), (RobustCodeBlock.isBlockish (ToLower d));
    by rewrite ?append_assoc, ?append_nil_l.
Qed.

(** ** The language of a code block *)

Lemma lower_idem c : lower (lower c) = lower c.
Proof. destruct c as [[] [] [] [] [] [] [] []]; reflexivity. Qed.

Lemma isSpace_lower c : RobustCodeBlock.isSpace (lower c) = RobustCodeBlock.isSpace c.
Proof. destruct c as [[] [] [] [] [] [] [] []]; reflexivity. Qed.

Lemma ToLower_idem s : ToLower (ToLower s) = ToLower s.
Proof. induction s as [|c s IH]; [done|]. simpl. by rewrite lower_idem, IH. Qed.

Lemma Fields_cons c s :
  RobustCodeBlock.Fields (String c s)
  = if RobustCodeBlock.isSpace c then RobustCodeBlock.Fields s
    else match s with
         | EmptyString => [String c EmptyString]
         | String c' _ =>
             if RobustCodeBlock.isSpace c' then String c EmptyString :: RobustCodeBlock.Fields s
             else match RobustCodeBlock.Fields s with
                  | t :: ts => String c t :: ts
                  | [] => [String c EmptyString]
                  end
         end.
Proof. reflexivity. Qed.

Lemma Fields_ToLower s :
  RobustCodeBlock.Fields (ToLower s) = map ToLower (RobustCodeBlock.Fields s).
Proof.
  induction s as [|c s IH]; [done|].
  change (ToLower (String c s)) with (String (lower c) (ToLower s)).
  rewrite !Fields_cons, isSpace_lower.
  destruct (RobustCodeBlock.isSpace c); [done|].
  destruct s as [|c' s']; [done|].
  change (ToLower (String c' s')) with (String (lower c') (ToLower s')) in *.
  cbv beta iota. rewrite isSpace_lower.
  destruct (RobustCodeBlock.isSpace c'); [by rewrite IH|].
  rewrite IH. by destruct (RobustCodeBlock.Fields (String c' s')).
Qed.

Lemma ToLower_substring n m s :
  ToLower (String.substring n m s) = String.substring n m (ToLower s).
Proof.
  revert n m. induction s as [|c s IH]; intros n m.
  - by destruct n, m.
  - destruct n as [|n]; simpl.
    + destruct m as [|m]; [done|]. simpl. by rewrite IH.
    + apply IH.
Qed.

Lemma TrimPrefix_lower part prefix :
  ToLower part = part →
  ToLower (RobustCodeBlock.TrimPrefix part prefix) = RobustCodeBlock.TrimPrefix part prefix.
Proof.
  intros Hpart. unfold RobustCodeBlock.TrimPrefix.
  destruct (HasPrefix part prefix); [|done].
  by rewrite ToLower_substring, Hpart.
Qed.

Lemma detectLangIn_lower parts :
  Forall (λ part, ToLower part = part) parts →
  ToLower (RobustCodeBlock.detectLangIn parts) = RobustCodeBlock.detectLangIn parts.
Proof.
  induction 1 as [|part parts Hpart _ IH]; [done|]. simpl.
  destruct (HasPrefix part "language-"); [by apply TrimPrefix_lower|].
  destruct (HasPrefix part "lang-"); [by apply TrimPrefix_lower|]. done.
Qed.

Lemma detectLang_lower_helper (sel : Selection) :
  ToLower (RobustCodeBlock.detectLang sel) = RobustCodeBlock.detectLang sel.
Proof.
  unfold RobustCodeBlock.detectLang. cbv zeta. apply detectLangIn_lower.
  rewrite Fields_ToLower. apply Forall_forall.
  intros part (field & -> & _)%list_elem_of_fmap. apply ToLower_idem.
Qed.


(** ** The fenced block *)

Lemma TrimRightLF_spec s :
  ∃ k, s = TrimRightLF s +:+ Repeat LF k ∧ HasSuffix (TrimRightLF s) LF = false.
Proof.
  induction s as [|c s (k & Hs & Hsuffix)]; [by exists 0|].
  cbn [TrimRightLF]. destruct (TrimRightLF s) as [|d t] eqn:Ht.
  - rewrite append_nil_l in Hs. destruct (Ascii.eqb_spec c "010") as [->|Hc].
    + exists (S k). split; [|done]. rewrite append_nil_l. simpl.
      unfold LF at 1. by rewrite append_cons, append_nil_l, <-Hs.
    + exists k. split; [by rewrite append_cons, append_nil_l, <-Hs|].
      rewrite HasSuffix_cons, HasSuffix_nil.
      destruct (String.eqb_spec (String c "") LF) as [Heq|_]; [|done].
      unfold LF in Heq. by simplify_eq.
  - exists k. split; [by rewrite append_cons, <-Hs|].
    rewrite HasSuffix_cons, Hsuffix, orb_false_r.
    apply String.eqb_neq. unfold LF. by intros [= _ ?].
Qed.


(** ** Inline code inside a block *)

Lemma elem_of_ParentsFiltered (s : Selection) (tag : string) (a : Path) :
  a ∈ Nodes (ParentsFiltered s tag)
  ↔ ∃ r n, a ++ r ∈ Nodes s ∧ r ≠ [] ∧ nodeAt (document s) a = Some n
           ∧ isElement n = true ∧ Data n = tag.
Proof.
  simpl. rewrite elem_of_mapNodes. split.
  - intros (p & Hp & [Hmatch Ha]%list_elem_of_filter).
    apply elem_of_ancestorPaths in Ha as (r & Hr & ->); [|done].
    unfold matchesTag in Hmatch. destruct (nodeAt (document s) a) as [n|] eqn:Hn; [|done].
    apply andb_true_iff in Hmatch as [He Hd%String.eqb_eq]. by exists r, n.
  - intros (r & n & Hp & Hr & Hn & He & Hd). exists (a ++ r). split; [done|].
    apply list_elem_of_filter. split.
    + unfold matchesTag. rewrite Hn, He. by apply String.eqb_eq.
    + apply elem_of_ancestorPaths; [done|]. by exists r.
Qed.

(** X16: The inline-code rule skips exactly when a [<pre>] element is above a
    selected node; it then leaves the node to the rules registered before
    it. *)
Theorem codeReplacement_skips_iff
    (TrimTrailingSpaces : string → string)
    (content : string) (selec : Selection) (opt : Options) :
  RobustCodeBlock.codeReplacement TrimTrailingSpaces content selec opt = None
  ↔ ∃ a r n, a ++ r ∈ Nodes selec ∧ r ≠ [] ∧ nodeAt (document selec) a = Some n
             ∧ isElement n = true ∧ Data n = "pre".
Proof.
  unfold RobustCodeBlock.codeReplacement, Length.
  destruct (Nodes (ParentsFiltered selec "pre")) as [|a l] eqn:Hpre; simpl.
  - split; [done|]. intros (a & r & n & H).
    assert (a ∈ Nodes (ParentsFiltered selec "pre")) as Hin
      by (apply elem_of_ParentsFiltered; by exists r, n).
    rewrite Hpre in Hin. by apply elem_of_nil in Hin.
  - split; [intros _|done].
    assert (a ∈ Nodes (ParentsFiltered selec "pre")) as Hin by (rewrite Hpre; left).
    apply elem_of_ParentsFiltered in Hin as (r & n & H). by exists a, r, n.
Qed.

(** ** Code with inline markup only *)

Lemma plain_children (cs : list Node) :
  Forall (λ c, Props.plain c = true →
               ∀ b, RobustCodeBlock.collect c b = b +:+ Goquery.nodeText c) cs →
  forallb Props.plain cs = true →
  ∀ b,
    (fix children (cs : list Node) (b : string) : string :=
       match cs with
       | [] => b
       | child :: cs' => children cs' (RobustCodeBlock.collect child b)
       end) cs b
    = b +:+ (fix children (cs : list Node) : string :=
               match cs with
               | [] => EmptyString
               | c :: cs' => Goquery.nodeText c +:+ children cs'
               end) cs.
Proof.
  intros Hcs. induction Hcs as [|c cs Hc _ IH]; intros Hplain b.
  - by rewrite append_nil_r.
  - simpl in Hplain. apply andb_true_iff in Hplain as [Hp Hps].
    rewrite Hc, IH by done. by rewrite append_assoc.
Qed.

Lemma collect_plain n :
  Props.plain n = true → ∀ b, RobustCodeBlock.collect n b = b +:+ Goquery.nodeText n.
Proof.
  induction n as [t d a cs IH] using Node_ind. intros Hplain b.
  assert (Goquery.nodeText (mkNode t d a cs)
          = (if bool_decide (t = TextNode) then d else EmptyString)
            +:+ (fix children (cs : list Node) : string :=
                   match cs with
                   | [] => EmptyString
                   | c :: cs' => Goquery.nodeText c +:+ children cs'
                   end) cs) as -> by done.
  destruct t; try (destruct cs; [by cbn; rewrite ?append_nil_r|done]).
  assert (RobustCodeBlock.collect (mkNode ElementNode d a cs) b =
    (let name := ToLower d in
     if negb (String.eqb name "") &&
        existsb (λ a, String.eqb (Key a) "class" && RobustCodeBlock.isGutter (Val a)) a
     then b
     else
       let b := if String.eqb name "br" then b +:+ LF else b in
       let b :=
         (fix children (cs : list Node) (b : string) : string :=
            match cs with
            | [] => b
            | child :: cs' => children cs' (RobustCodeBlock.collect child b)
            end) cs b in
       if RobustCodeBlock.isBlockish name then b +:+ LF else b)) as -> by done.
  change (Props.plain (mkNode ElementNode d a cs)) with
    (negb (Spec.hasGutterClass (mkNode ElementNode d a cs))
     && negb (String.eqb (ToLower d) "br")
     && negb (RobustCodeBlock.isBlockish (ToLower d))
     && forallb Props.plain cs) in Hplain.
  apply andb_true_iff in Hplain as [Hplain Hcs].
  apply andb_true_iff in Hplain as [Hplain Hblock%negb_true_iff].
  apply andb_true_iff in Hplain as [Hgutter%negb_true_iff Hbr%negb_true_iff].
  cbv zeta.
  change (existsb _ a) with (Spec.hasGutterClass (mkNode ElementNode d a cs)).
  rewrite Hgutter, andb_false_r, Hbr, Hblock.
  rewrite plain_children by done. by rewrite bool_decide_eq_false_2.
Qed.



(** ** Absolute URLs *)


